(** * Video analysis service: the live-media ingestion pipeline

    A shallow embedding of [services/video_analysis/tasks.py] (the Celery
    worker that turns one audio segment into insights) and of
    [services/video_analysis/main.py] (the capture loop that cuts the
    decoder's output into segments, the collector that pushes results on the
    delivery queue, the HTTP trigger and the WebSocket subscribers). *)

From Stdlib Require Import ZArith QArith Lia.
From Stdlib.Strings Require Import Byte.
From stdpp Require Import base option list strings gmap.

Local Open Scope Z_scope.


(** ** Values shared by the two processes *)

(** Python [bytes] / [bytearray] contents. *)
Definition bytes := list byte.

(** [len(b)] as a Python integer. *)
Definition len (b : bytes) : Z := Z.of_nat (length b).

(** An instance of Python's [Exception]: its class name and [str(e)], which
    is all the f-strings of the handlers look at.  ([KeyboardInterrupt],
    [SystemExit] and the other [BaseException]-only classes are not
    [Exception]s and are outside the model: no [except Exception] of the
    program catches them.) *)
Record Exception := mkExc { exc_class : string; exc_str : string }.

(** A Python call either returns a value or raises. *)
Inductive outcome (A : Type) : Type :=
| Returns (a : A)
| Raises (e : Exception).
Arguments Returns {A} a.
Arguments Raises {A} e.

(** The dictionary built by [extract_insights_sync]: five fixed keys.  The
    timestamp is the float returned by [time.time()]; it is only stored, so
    a rational stands for it. *)
Record Insight := mkInsight {
  timestamp : Q;
  speaker : string;
  action : string;
  keywords : list string;
  sentiment : string
}.

(** ** tasks.py: the segment worker *)

Module Tasks.

(** The worker process' surroundings (file system, clock, the loaded
    Whisper model, the log) are an uninterpreted state [world]; every
    library call is a transition on it that returns or raises. *)
Definition M (world A : Type) : Type := world -> outcome A * world.

#[global] Instance M_ret {world} : MRet (M world) :=
  fun A a w => (Returns a, w).
#[global] Instance M_bind {world} : MBind (M world) :=
  fun A B f m w =>
    match m w with
    | (Returns a, w') => f a w'
    | (Raises e, w') => (Raises e, w')
    end.

(** [try: body except Exception as e: handler(e)] *)
Definition try_except {world A} (body : M world A)
    (handler : Exception -> M world A) : M world A :=
  fun w =>
    match body w with
    | (Returns a, w') => (Returns a, w')
    | (Raises e, w') => handler e w'
    end.

(** [try: body finally: cleanup]; an exception of [cleanup] replaces the
    outcome of [body]. *)
Definition try_finally {world A} (body : M world A)
    (cleanup : M world unit) : M world A :=
  fun w =>
    match body w with
    | (r, w') =>
        match cleanup w' with
        | (Returns _, w'') => (r, w'')
        | (Raises e, w'') => (Raises e, w'')
        end
    end.

(** The library calls made by the worker. *)
Class Library (world : Type) := {
  NamedTemporaryFile : string -> M world string;   (* suffix -> tmp.name *)
  file_write : string -> bytes -> M world unit;
  file_flush : string -> M world unit;
  file_close : string -> M world unit;
  os_unlink : string -> M world unit;
  model_transcribe : string -> M world (gmap string string);
  time_sleep : Q -> M world unit;
  time_time : M world Q;
  (** [logger.error(msg)]: the logging module does not raise into its
      caller. *)
  logger_error : string -> world -> world
}.

Section Worker.
Context {world : Type} `{!Library world}.

Definition log_error (msg : string) : M world unit :=
  fun w => (Returns tt, logger_error msg w).

Definition transcribe_audio_sync (audio_path : string) : M world string :=
  try_except
    (result ← model_transcribe audio_path;
     let transcription := default "" (result !! "text") in
     mret transcription)
    (fun e =>
       log_error ("Transcription failed: " +:+ exc_str e);;
       mret "").

Definition diarization_processing (file_path : string)
    : M world (gmap string string) :=
  time_sleep 0.5;;
  mret (<["speaker_1" := "Speaker 1"]> (<["speaker_2" := "Speaker 2"]> ∅)).

Definition perform_diarization_sync (audio_path : string)
    : M world (gmap string string) :=
  try_except
    (diarization_processing audio_path)
    (fun e =>
       log_error ("Diarization failed: " +:+ exc_str e);;
       mret ∅).

Definition extract_insights_sync (transcription : string)
    (diarization : gmap string string) : M world (list Insight) :=
  time_sleep 0.5;;
  now ← time_time;
  mret [ {| timestamp := now;
            speaker := default "Unknown" (diarization !! "speaker_1");
            action := "Follow up on discussion";
            keywords := ["follow"; "discussion"];
            sentiment := "positive" |} ].

(** The [with tempfile.NamedTemporaryFile(suffix=".wav", delete=False)]
    block: the file is closed when the block is left, also by an
    exception. *)
Definition write_temp_wav (audio_bytes : bytes) : M world string :=
  tmp ← NamedTemporaryFile ".wav";
  try_finally
    (file_write tmp audio_bytes;;
     file_flush tmp;;
     mret tmp)
    (file_close tmp).

(** The body of the task's [try]: the three sub-steps in order. *)
Definition sub_steps (tmp_name : string) : M world (list Insight) :=
  transcription ← transcribe_audio_sync tmp_name;
  diarization ← perform_diarization_sync tmp_name;
  insights ← extract_insights_sync transcription diarization;
  mret insights.

(** The [except Exception] branch of the task. *)
Definition on_error (e : Exception) : M world (list Insight) :=
  log_error ("Error processing audio chunk: " +:+ exc_str e);;
  mret [].

Definition process_audio_chunk (audio_bytes : bytes) : M world (list Insight) :=
  tmp_name ← write_temp_wav audio_bytes;
  try_finally
    (try_except (sub_steps tmp_name) on_error)
    (os_unlink tmp_name).

End Worker.
End Tasks.

(** ** main.py: capture, segmentation, collection *)

Module Main.

(** What the coroutine [process_video_stream] does, in program order. *)
Inductive event :=
| EvSpawn (argv : list string)            (* create_subprocess_exec(...) *)
| EvRead (n : Z) (chunk : bytes)          (* await process.stdout.read(n) *)
| EvDelay (task : nat) (payload : bytes)  (* process_audio_chunk.delay(payload) *)
| EvGet (task : nat) (timeout : Z)        (* await to_thread(celery_result.get, timeout) *)
| EvPut (insight : Insight)               (* await insights_queue.put(insight) *)
| EvLogError (msg : string)               (* logger.error(msg) *)
| EvLogInfo (msg : string)                (* logger.info(msg) *)
| EvSleep (seconds : Q)                   (* await asyncio.sleep(seconds) *)
| EvWait.                                 (* await process.wait() *)

(** The Celery side as the web process sees it.  Tasks are numbered in the
    order they are published (the number is the broker's, the program
    never reads it). *)
Class Celery := {
  (** [process_audio_chunk.delay(payload)] for the task published after
      [task] others: the message is accepted, or the call raises. *)
  delay_outcome : nat -> bytes -> outcome unit;
  (** [celery_result.get(timeout)]: the worker's return value when it
      arrives within [timeout] seconds; otherwise the call raises
      ([TimeoutError], a backend error, or the task's own exception). *)
  get_outcome : nat -> bytes -> Z -> outcome (list Insight)
}.

(** [celery_result]: which task it stands for. *)
Record AsyncResult := mkAsyncResult { task_no : nat; task_args : bytes }.

(** The variables the coroutine works on.  [insights_queue] is the module
    level [asyncio.Queue()]: unbounded, [put] appends at the back. *)
Record state := mkState {
  audio_buffer : bytes;
  insights_queue : list Insight;
  tasks_sent : nat
}.

(** A step of the coroutine: outcome, new state, events performed. *)
Definition P (A : Type) : Type := state -> outcome A * state * list event.

#[global] Instance P_ret : MRet P := fun A a st => (Returns a, st, []).
#[global] Instance P_bind : MBind P := fun A B f m st =>
  match m st with
  | (Returns a, st', tr) =>
      match f a st' with
      | (r, st'', tr') => (r, st'', tr ++ tr')
      end
  | (Raises e, st', tr) => (Raises e, st', tr)
  end.

Definition emit (ev : event) : P unit := fun st => (Returns tt, st, [ev]).

Definition try_except {A} (body : P A) (handler : Exception -> P A) : P A :=
  fun st =>
    match body st with
    | (Returns a, st', tr) => (Returns a, st', tr)
    | (Raises e, st', tr) =>
        match handler e st' with
        | (r, st'', tr') => (r, st'', tr ++ tr')
        end
    end.

Definition log_error (msg : string) : P unit := emit (EvLogError msg).

Definition asyncio_sleep (seconds : Q) : P unit := emit (EvSleep seconds).

(** [audio_buffer.extend(chunk)] *)
Definition buffer_extend (chunk : bytes) : P unit := fun st =>
  (Returns tt,
   mkState (audio_buffer st ++ chunk) (insights_queue st) (tasks_sent st),
   []).

(** [len(audio_buffer)] *)
Definition buffer_len : P Z := fun st => (Returns (len (audio_buffer st)), st, []).

(** [current_buffer = bytes(audio_buffer); audio_buffer.clear()] *)
Definition buffer_snapshot_clear : P bytes := fun st =>
  (Returns (audio_buffer st),
   mkState [] (insights_queue st) (tasks_sent st),
   []).

(** [await insights_queue.put(insight)] *)
Definition queue_put (insight : Insight) : P unit := fun st =>
  (Returns tt,
   mkState (audio_buffer st) (insights_queue st ++ [insight]) (tasks_sent st),
   [EvPut insight]).

(** [for insight in insights: await insights_queue.put(insight)] *)
Fixpoint put_each (insights : list Insight) : P unit :=
  match insights with
  | [] => mret tt
  | insight :: rest => queue_put insight;; put_each rest
  end.

Section Capture.
Context {broker : Celery}.

(** [process_audio_chunk.delay(current_buffer)] *)
Definition delay (payload : bytes) : P AsyncResult := fun st =>
  let k := tasks_sent st in
  match delay_outcome k payload with
  | Returns _ =>
      (Returns (mkAsyncResult k payload),
       mkState (audio_buffer st) (insights_queue st) (S k),
       [EvDelay k payload])
  | Raises e => (Raises e, st, [])
  end.

(** [await asyncio.to_thread(celery_result.get, timeout)] *)
Definition to_thread_get (celery_result : AsyncResult) (timeout : Z)
    : P (list Insight) := fun st =>
  (get_outcome (task_no celery_result) (task_args celery_result) timeout,
   st,
   [EvGet (task_no celery_result) timeout]).

(** The body of [if len(audio_buffer) >= THRESHOLD:]. *)
Definition offload : P unit :=
  current_buffer ← buffer_snapshot_clear;
  celery_result ← delay current_buffer;
  try_except
    (insights ← to_thread_get celery_result 10;
     put_each insights)
    (fun e => log_error ("Celery task processing failed: " +:+ exc_str e)).

(** One turn of the [while True] loop after a non-empty read. *)
Definition loop_body (THRESHOLD : Z) (chunk : bytes) : P unit :=
  buffer_extend chunk;;
  n ← buffer_len;
  (if bool_decide (THRESHOLD ≤ n) then offload else mret tt);;
  asyncio_sleep 0.1.

(** The [while True] loop.  [stdout] lists what the successive
    [process.stdout.read(1024)] calls return; at the end of the list the
    decoder has closed its output and [read] returns [b""]. *)
Fixpoint capture_loop (THRESHOLD : Z) (stdout : list bytes) : P unit :=
  match stdout with
  | [] => emit (EvRead 1024 [])
  | chunk :: stdout' =>
      emit (EvRead 1024 chunk);;
      match chunk with
      | [] => mret tt                                  (* if not chunk: break *)
      | _ :: _ =>
          loop_body THRESHOLD chunk;;
          capture_loop THRESHOLD stdout'
      end
  end.

Definition THRESHOLD : Z := 100000.

Definition process_video_stream (stream_url : string) (stdout : list bytes)
    : P unit :=
  emit (EvSpawn ["ffmpeg"; "-i"; stream_url; "-f"; "wav"; "pipe:1"]);;
  (fun st => (Returns tt,
              mkState [] (insights_queue st) (tasks_sent st), []));;
  capture_loop THRESHOLD stdout;;
  emit EvWait.

End Capture.

(** *** Reading a run *)

(** The segments handed to the work queue, in submission order. *)
Fixpoint submitted (tr : list event) : list bytes :=
  match tr with
  | [] => []
  | EvDelay _ payload :: tr' => payload :: submitted tr'
  | _ :: tr' => submitted tr'
  end.

(** The insights put on the delivery queue, in order. *)
Fixpoint pushed (tr : list event) : list Insight :=
  match tr with
  | [] => []
  | EvPut insight :: tr' => insight :: pushed tr'
  | _ :: tr' => pushed tr'
  end.

(** The non-empty chunks read before the end of the stream. *)
Fixpoint consumed (stdout : list bytes) : list bytes :=
  match stdout with
  | [] => []
  | [] :: _ => []
  | chunk :: stdout' => chunk :: consumed stdout'
  end.

(** The segmentation alone: the segments cut from [stdout] starting with
    [buf] in the rolling buffer, and the buffer at the end of the stream. *)
Fixpoint cuts (THRESHOLD : Z) (buf : bytes) (stdout : list bytes)
    : list bytes * bytes :=
  match stdout with
  | [] => ([], buf)
  | [] :: _ => ([], buf)
  | chunk :: stdout' =>
      let buf' := buf ++ chunk in
      if bool_decide (THRESHOLD ≤ len buf') then
        let (segments, rest) := cuts THRESHOLD [] stdout' in
        (buf' :: segments, rest)
      else cuts THRESHOLD buf' stdout'
  end.

(** Whether the result of task [k] is awaited before the next read. *)
Fixpoint waits_before_read (k : nat) (tr : list event) : bool :=
  match tr with
  | [] => false
  | EvRead _ _ :: _ => false
  | EvGet k' _ :: tr' => bool_decide (k = k') || waits_before_read k tr'
  | _ :: tr' => waits_before_read k tr'
  end.

(** No submission is followed by a wait for its own result before the
    loop reads again. *)
Fixpoint fire_and_forget (tr : list event) : bool :=
  match tr with
  | [] => true
  | EvDelay k _ :: tr' => negb (waits_before_read k tr') && fire_and_forget tr'
  | _ :: tr' => fire_and_forget tr'
  end.

(** Every submission is directly followed by the ten-second wait for its
    own result. *)
Fixpoint awaited_at_once (tr : list event) : Prop :=
  match tr with
  | [] => True
  | EvDelay k _ :: tr' =>
      (∃ tr'', tr' = EvGet k 10 :: tr'') ∧ awaited_at_once tr'
  | _ :: tr' => awaited_at_once tr'
  end.

Section Reading.
Context {broker : Celery}.

(** What the collector obtains for the tasks numbered from [k] on with
    the given payloads: the result of each [get] that returns, nothing
    for one that raises. *)
Fixpoint collected (k : nat) (segments : list bytes) : list Insight :=
  match segments with
  | [] => []
  | segment :: rest =>
      match get_outcome k segment 10 with
      | Returns insights => insights
      | Raises _ => []
      end ++ collected (S k) rest
  end.

(** The four ways a turn of the loop can go, with the buffer [buf] it
    holds after appending the chunk. *)
Inductive turn (T : Z) (chunk : bytes) (st : state)
    : outcome unit → state → list event → Prop :=
| turn_keep :
    len (audio_buffer st ++ chunk) < T →
    turn T chunk st (Returns tt)
      (mkState (audio_buffer st ++ chunk) (insights_queue st) (tasks_sent st))
      [EvSleep 0.1]
| turn_refused e :
    T ≤ len (audio_buffer st ++ chunk) →
    delay_outcome (tasks_sent st) (audio_buffer st ++ chunk) = Raises e →
    turn T chunk st (Raises e)
      (mkState [] (insights_queue st) (tasks_sent st))
      []
| turn_collected u insights :
    T ≤ len (audio_buffer st ++ chunk) →
    delay_outcome (tasks_sent st) (audio_buffer st ++ chunk) = Returns u →
    get_outcome (tasks_sent st) (audio_buffer st ++ chunk) 10
      = Returns insights →
    turn T chunk st (Returns tt)
      (mkState [] (insights_queue st ++ insights) (S (tasks_sent st)))
      (EvDelay (tasks_sent st) (audio_buffer st ++ chunk)
         :: EvGet (tasks_sent st) 10
         :: map EvPut insights ++ [EvSleep 0.1])
| turn_dropped u e :
    T ≤ len (audio_buffer st ++ chunk) →
    delay_outcome (tasks_sent st) (audio_buffer st ++ chunk) = Returns u →
    get_outcome (tasks_sent st) (audio_buffer st ++ chunk) 10 = Raises e →
    turn T chunk st (Returns tt)
      (mkState [] (insights_queue st) (S (tasks_sent st)))
      [EvDelay (tasks_sent st) (audio_buffer st ++ chunk);
       EvGet (tasks_sent st) 10;
       EvLogError ("Celery task processing failed: " +:+ exc_str e);
       EvSleep 0.1].

End Reading.



(** *** The HTTP trigger *)

Record VideoAnalysisRequest := mkRequest {
  meeting_id : string;
  video_url : string;
  language : string
}.

(** An entry of FastAPI's [BackgroundTasks]: the callable and its
    argument.  [process_video_stream] is the only callable ever added. *)
Inductive background_task :=
| Call_process_video_stream (stream_url : string).

(** The endpoint: its JSON response, the task list it leaves behind and
    what it did itself. *)
Definition analyze_video (request : VideoAnalysisRequest)
    (background_tasks : list background_task)
    : gmap string string * list background_task * list event :=
  let logged := [EvLogInfo ("Starting video analysis for meeting "
                          +:+ meeting_id request)] in
  let background_tasks :=
    background_tasks ++ [Call_process_video_stream (video_url request)] in
  (<["status" := "started"]> (<["video_url" := video_url request]> ∅),
   background_tasks,
   logged).

(** What running a queued entry means. *)
Definition run_background_task {broker : Celery} (t : background_task)
    (stdout : list bytes) : P unit :=
  match t with
  | Call_process_video_stream stream_url =>
      process_video_stream stream_url stdout
  end.

(** Whether an event belongs to the pipeline proper. *)
Definition pipeline_event (ev : event) : bool :=
  match ev with
  | EvLogInfo _ => false
  | _ => true
  end.

(** *** The WebSocket subscribers *)

(** Where one [websocket_insights] coroutine stands. *)
Inductive handler :=
| AwaitingGet                     (* in [await insights_queue.get()] *)
| AwaitingSend (insight : Insight) (* in [await websocket.send_json(insight)] *)
| Closed.                         (* after the [except] branch *)

(** All coroutines around the one module-level queue.  Connections are
    numbered.  [taken] and [sent] record history: what each [get] returned
    and what reached a socket, oldest first. *)
Record hub := mkHub {
  queue : list Insight;
  handlers : gmap nat handler;
  taken : list (nat * Insight);
  sent : list (nat * Insight)
}.

Inductive action :=
| Attach (ws : nat)            (* a client connects; [websocket.accept()] *)
| Put (insight : Insight)      (* the collector's [insights_queue.put] *)
| Get (ws : nat)               (* the [get] of connection [ws] returns *)
| SendOk (ws : nat)            (* its [send_json] returns *)
| SendRaises (ws : nat) (e : Exception).
                               (* its [send_json] raises, e.g. the client
                                  has gone; logged, [websocket.close()] *)

(** One scheduling step; [None] when the action cannot happen in [h].
    [asyncio.Queue.get] removes the item it returns. *)
Definition step (a : action) (h : hub) : option hub :=
  match a with
  | Attach ws =>
      match handlers h !! ws with
      | None =>
          Some (mkHub (queue h) (<[ws := AwaitingGet]> (handlers h))
                      (taken h) (sent h))
      | Some _ => None
      end
  | Put insight =>
      Some (mkHub (queue h ++ [insight]) (handlers h) (taken h) (sent h))
  | Get ws =>
      match handlers h !! ws, queue h with
      | Some AwaitingGet, insight :: rest =>
          Some (mkHub rest (<[ws := AwaitingSend insight]> (handlers h))
                      (taken h ++ [(ws, insight)]) (sent h))
      | _, _ => None
      end
  | SendOk ws =>
      match handlers h !! ws with
      | Some (AwaitingSend insight) =>
          Some (mkHub (queue h) (<[ws := AwaitingGet]> (handlers h))
                      (taken h) (sent h ++ [(ws, insight)]))
      | _ => None
      end
  | SendRaises ws e =>
      match handlers h !! ws with
      | Some (AwaitingSend insight) =>
          Some (mkHub (queue h) (<[ws := Closed]> (handlers h))
                      (taken h) (sent h))
      | _ => None
      end
  end.

Fixpoint run (schedule : list action) (h : hub) : option hub :=
  match schedule with
  | [] => Some h
  | a :: schedule' =>
      match step a h with
      | Some h' => run schedule' h'
      | None => None
      end
  end.

(** The insights the collector put during a schedule. *)
Fixpoint puts (schedule : list action) : list Insight :=
  match schedule with
  | [] => []
  | Put insight :: schedule' => insight :: puts schedule'
  | _ :: schedule' => puts schedule'
  end.

Definition hub0 : hub := mkHub [] ∅ [] [].

(** The insights connection [ws] was sent. *)
Definition received (ws : nat) (h : hub) : list Insight :=
  (filter (fun m => m.1 = ws) (sent h)).*2.


(** Every insight taken off the queue was sent, or is one of the
    [unsent]; what a coroutine is about to send is among the latter. *)
Definition accounted (h : hub) : Prop :=
  ∃ unsent,
    taken h ≡ₚ sent h ++ unsent
    ∧ ∀ ws insight,
        handlers h !! ws = Some (AwaitingSend insight) →
        (ws, insight) ∈ unsent.

End Main.

(** ** Concrete surroundings used to exercise the statements *)

Module Fixture.

(** A worker whose Whisper model rejects every file; the world is the
    list of logged lines. *)
#[global] Instance deaf_worker : Tasks.Library (list string) := {|
  Tasks.NamedTemporaryFile := fun suffix w => (Returns ("/tmp/tmpk3" +:+ suffix), w);
  Tasks.file_write := fun _ _ w => (Returns tt, w);
  Tasks.file_flush := fun _ w => (Returns tt, w);
  Tasks.file_close := fun _ w => (Returns tt, w);
  Tasks.os_unlink := fun _ w => (Returns tt, w);
  Tasks.model_transcribe := fun _ w =>
    (Raises (mkExc "RuntimeError" "Failed to load audio"), w);
  Tasks.time_sleep := fun _ w => (Returns tt, w);
  Tasks.time_time := fun w => (Returns 1738800000%Q, w);
  Tasks.logger_error := fun msg w => w ++ [msg]
|}.

(** [n] zero bytes, and the reads a decoder that is always ahead of the
    loop serves them in: full 1024-byte chunks, then the rest. *)
Definition zeros (n : Z) : bytes := replicate (Z.to_nat n) x00.

Definition full_reads (n : Z) : list bytes :=
  replicate (Z.to_nat (n / 1024)) (zeros 1024) ++ [zeros (n mod 1024)].

Definition note (who what : string) : Insight :=
  {| timestamp := 1738800000%Q; speaker := who; action := what;
     keywords := ["follow"; "discussion"]%string; sentiment := "positive" |}.

(** A broker that accepts every task; the first result never arrives in
    time, every later task returns two insights. *)
Definition late_first : Main.Celery := {|
  Main.delay_outcome := fun _ _ => Returns tt;
  Main.get_outcome := fun task _ _ =>
    match task with
    | O => Raises (mkExc "TimeoutError" "The operation timed out.")
    | S _ => Returns [note "Speaker 1" "first"; note "Speaker 2" "second"]
    end
|}.

Definition fresh : Main.state := Main.mkState [] [] 0.

Definition room : string := "rtmp://live/room".



End Fixture.

(** ** main.py: the in-process collaborators *)

(** The coroutines [transcribe_audio], [perform_diarization] and
    [extract_insights] of main.py make the same library calls as the worker,
    plus [asyncio.sleep]; they run in the web process. *)
Module Helpers.

Import Tasks.

Class AsyncLibrary (world : Type) := {
  asyncio_sleep : Q -> M world unit
}.

Section InProcess.
Context {world : Type} `{!Library world} `{!AsyncLibrary world}.

(** [await loop.run_in_executor(None, f, arg)]: [f(arg)] runs in a thread
    of the default executor; the coroutine gets what it returns or raises. *)
Definition run_in_executor {A B} (f : A -> M world B) (arg : A) : M world B :=
  f arg.

Definition transcribe_audio (audio_bytes : bytes) : M world string :=
  tmp_name ← write_temp_wav audio_bytes;
  transcription ←
    try_finally
      (try_except
         (result ← run_in_executor model_transcribe tmp_name;
          mret (default "" (result !! "text")))
         (fun e =>
            log_error ("Transcription failed: " +:+ exc_str e);;
            mret ""))
      (os_unlink tmp_name);
  mret transcription.

Definition diarization_processing (file_path : string)
    : M world (gmap string string) :=
  time_sleep 0.5;;
  mret (<["speaker_1" := "Speaker 1"]> (<["speaker_2" := "Speaker 2"]> ∅)).

Definition perform_diarization (audio_bytes : bytes)
    : M world (gmap string string) :=
  tmp_name ← write_temp_wav audio_bytes;
  result ←
    try_finally
      (try_except
         (run_in_executor diarization_processing tmp_name)
         (fun e =>
            log_error ("Diarization failed: " +:+ exc_str e);;
            mret ∅))
      (os_unlink tmp_name);
  mret result.

Definition extract_insights (transcription : string)
    (diarization : gmap string string) : M world (list Insight) :=
  asyncio_sleep 0.5;;
  now ← time_time;
  mret [ {| timestamp := now;
            speaker := default "Unknown" (diarization !! "speaker_1");
            action := "Follow up on discussion";
            keywords := ["follow"; "discussion"];
            sentiment := "positive" |} ].

End InProcess.
End Helpers.

(** ** common/logger.py *)

Module Logger.

(** A [logging.StreamHandler] with its [Formatter]'s format string. *)
Record Handler := mkHandler { format : string }.

(** What the program looks at in a [logging.Logger]. *)
Record PyLogger := mkLogger { handlers : list Handler; level : Z }.

Definition NOTSET : Z := 0.
Definition INFO : Z := 20.

(** [logging.getLogger(name)]: the logger registered under [name], created
    without handlers and with level [NOTSET] at the first request.  The
    registry maps names to loggers.  The logging module answers both [""]
    and ["root"] with its one root logger; the registry keeps them as two
    keys, so statements relating different names leave that pair out. *)
Definition getLogger (name : string) (registry : gmap string PyLogger)
    : PyLogger * gmap string PyLogger :=
  match registry !! name with
  | Some logger => (logger, registry)
  | None =>
      let logger := mkLogger [] NOTSET in
      (logger, <[name := logger]> registry)
  end.

(** [get_logger(name)]; the logger it returns is the one registered under
    [name] in the resulting registry. *)
Definition get_logger (name : string) (registry : gmap string PyLogger)
    : gmap string PyLogger :=
  let '(logger, registry) := getLogger name registry in
  match handlers logger with
  | [] =>
      let handler :=
        mkHandler "[%(levelname)s] %(asctime)s - %(name)s - %(message)s" in
      <[name := mkLogger (handlers logger ++ [handler]) INFO]> registry
  | _ :: _ => registry
  end.

End Logger.

(** ** Further readings of a run *)

Module Trace.

Import Main.

(** The chunks returned by the reads, the sleeps, the waits for results
    and the error lines of a run, each in order. *)
Fixpoint reads (tr : list event) : list bytes :=
  match tr with
  | [] => []
  | EvRead _ chunk :: tr' => chunk :: reads tr'
  | _ :: tr' => reads tr'
  end.

Fixpoint sleeps (tr : list event) : list Q :=
  match tr with
  | [] => []
  | EvSleep seconds :: tr' => seconds :: sleeps tr'
  | _ :: tr' => sleeps tr'
  end.

Fixpoint awaited (tr : list event) : list (nat * Z) :=
  match tr with
  | [] => []
  | EvGet task timeout :: tr' => (task, timeout) :: awaited tr'
  | _ :: tr' => awaited tr'
  end.

Fixpoint logged (tr : list event) : list string :=
  match tr with
  | [] => []
  | EvLogError msg :: tr' => msg :: logged tr'
  | _ :: tr' => logged tr'
  end.

(** The error lines for the tasks numbered from [k] on with the given
    payloads: one for each [get] that raises. *)
Fixpoint failures {broker : Celery} (k : nat) (segments : list bytes)
    : list string :=
  match segments with
  | [] => []
  | segment :: rest =>
      match get_outcome k segment 10 with
      | Returns _ => []
      | Raises e => ["Celery task processing failed: " +:+ exc_str e]
      end ++ failures (S k) rest
  end.

(** What connection [ws] took off the queue, in order. *)
Definition taken_by (ws : nat) (h : hub) : list Insight :=
  (filter (fun m => m.1 = ws) (taken h)).*2.

(** Per connection, what was taken is what was sent, plus the one insight
    a coroutine holds between its [get] and its [send_json], or held when
    its [send_json] raised. *)
Definition in_step (h : hub) : Prop :=
  ∀ ws,
    match Main.handlers h !! ws with
    | Some (AwaitingSend insight) => taken_by ws h = received ws h ++ [insight]
    | Some Closed => ∃ insight, taken_by ws h = received ws h ++ [insight]
    | Some AwaitingGet | None => taken_by ws h = received ws h
    end.

End Trace.

(** ** Further concrete surroundings *)

Module Samples.

(** A worker whose clock call fails during extraction only: sleeping
    works, [time.time] raises.  The world is the list of logged lines. *)
Definition clockless_worker : Tasks.Library (list string) := {|
  Tasks.NamedTemporaryFile := fun suffix w => (Returns ("/tmp/tmpk3" +:+ suffix), w);
  Tasks.file_write := fun _ _ w => (Returns tt, w);
  Tasks.file_flush := fun _ w => (Returns tt, w);
  Tasks.file_close := fun _ w => (Returns tt, w);
  Tasks.os_unlink := fun _ w => (Returns tt, w);
  Tasks.model_transcribe := fun _ w =>
    (Returns (<["text"%string := "we should follow up"%string]> ∅), w);
  Tasks.time_sleep := fun _ w => (Returns tt, w);
  Tasks.time_time := fun w => (Raises (mkExc "OSError" "clock unavailable"), w);
  Tasks.logger_error := fun msg w => w ++ [msg]
|}.

(** A worker on a disk that is full: the write raises. *)
Definition diskless_worker : Tasks.Library (list string) := {|
  Tasks.NamedTemporaryFile := fun suffix w => (Returns ("/tmp/tmpk3" +:+ suffix), w);
  Tasks.file_write := fun _ _ w =>
    (Raises (mkExc "OSError" "No space left on device"), w ++ ["write"%string]);
  Tasks.file_flush := fun _ w => (Returns tt, w);
  Tasks.file_close := fun _ w => (Returns tt, w ++ ["close"%string]);
  Tasks.os_unlink := fun _ w => (Returns tt, w ++ ["unlink"%string]);
  Tasks.model_transcribe := fun _ w => (Returns ∅, w);
  Tasks.time_sleep := fun _ w => (Returns tt, w);
  Tasks.time_time := fun w => (Returns 1738800000%Q, w);
  Tasks.logger_error := fun msg w => w ++ [msg]
|}.

(** A worker whose first sleep is interrupted: [time.sleep] raises as long
    as nothing has been logged. *)
Definition restless_worker : Tasks.Library (list string) := {|
  Tasks.NamedTemporaryFile := fun suffix w => (Returns ("/tmp/tmpk3" +:+ suffix), w);
  Tasks.file_write := fun _ _ w => (Returns tt, w);
  Tasks.file_flush := fun _ w => (Returns tt, w);
  Tasks.file_close := fun _ w => (Returns tt, w);
  Tasks.os_unlink := fun _ w => (Returns tt, w);
  Tasks.model_transcribe := fun _ w => (Returns ∅, w);
  Tasks.time_sleep := fun _ w =>
    match w with
    | [] => (Raises (mkExc "InterruptedError" "interrupted"), w)
    | _ :: _ => (Returns tt, w)
    end;
  Tasks.time_time := fun w => (Returns 1738800000%Q, w);
  Tasks.logger_error := fun msg w => w ++ [msg]
|}.

Definition steady_loop : Helpers.AsyncLibrary (list string) := {|
  Helpers.asyncio_sleep := fun _ w => (Returns tt, w)
|}.

(** A broker that is down when the second task is published. *)
Definition down_at_second : Main.Celery := {|
  Main.delay_outcome := fun task _ =>
    match task with
    | 1%nat => Raises (mkExc "OperationalError" "Connection refused")
    | _ => Returns tt
    end;
  Main.get_outcome := fun _ _ _ => Returns []
|}.

End Samples.

(** * Properties of the segment worker *)

Section WorkerFacts.
Import Tasks.
Context {world : Type} `{!Library world}.

Ltac run_M :=
  unfold sub_steps, transcribe_audio_sync, perform_diarization_sync,
    diarization_processing, extract_insights_sync, on_error, log_error,
    try_except, try_finally, mbind, M_bind, mret, M_ret in *;
  simpl in *.

(** Case analysis on the innermost library call of the goal. *)
Ltac next_call :=
  match goal with
  | |- context [match ?c with pair _ _ => _ end] =>
      lazymatch c with
      | context [match _ with _ => _ end] => fail
      | _ => destruct c as [[?|?] ?]; simpl
      end
  end.

Lemma transcribe_audio_sync_returns audio_path w :
  ∃ text w', transcribe_audio_sync audio_path w = (Returns text, w').
Proof.
  run_M. destruct (model_transcribe audio_path w) as [[result|e] w']; eauto.
Qed.

Lemma transcribe_audio_sync_failed audio_path w e w' :
  model_transcribe audio_path w = (Raises e, w') →
  transcribe_audio_sync audio_path w =
    (Returns ""%string,
     logger_error ("Transcription failed: " +:+ exc_str e) w').
Proof. intros Hraise. run_M. by rewrite Hraise. Qed.

Lemma perform_diarization_sync_returns audio_path w :
  ∃ d w', perform_diarization_sync audio_path w = (Returns d, w').
Proof.
  run_M. destruct (time_sleep 0.5 w) as [[[]|e] w']; eauto.
Qed.

(** The guarded sub-steps return a list of at most one insight. *)
Lemma guarded_sub_steps_return tmp_name w :
  ∃ insights w',
    try_except (sub_steps tmp_name) on_error w = (Returns insights, w')
    ∧ (length insights ≤ 1)%nat.
Proof.
  run_M.
  destruct (model_transcribe tmp_name w) as [[result|e] w1]; simpl;
    (match goal with
     | |- context [time_sleep 0.5 ?w] =>
         destruct (time_sleep 0.5 w) as [[[]|e1] w2]; simpl
     end);
    (match goal with
     | |- context [time_sleep 0.5 ?w] =>
         destruct (time_sleep 0.5 w) as [[[]|e2] w3]; simpl
     end);
    try (match goal with
     | |- context [time_time ?w] =>
         destruct (time_time w) as [[now|e3] w4]; simpl
     end);
    eexists _, _; split; (reflexivity || simpl; lia).
Qed.

(** C4.  Once the segment is on disk, and as long as removing the
    temporary file works, [process_audio_chunk] returns a list whatever
    the three sub-steps do: no exception of transcription, diarization or
    extraction reaches the caller.  When the Whisper call raises, the
    transcript is the empty string and the task goes on exactly as
    diarization followed by extraction on [""] from the world left by the
    failed call and its log line. *)
Theorem process_audio_chunk_absorbs_failures audio_bytes w tmp_name w1 :
  write_temp_wav audio_bytes w = (Returns tmp_name, w1) →
  (∀ w', ∃ w'', os_unlink tmp_name w' = (Returns tt, w'')) →
  (∃ insights w',
      process_audio_chunk audio_bytes w = (Returns insights, w')) ∧
  (∀ e w2,
      model_transcribe tmp_name w1 = (Raises e, w2) →
      let w3 := logger_error ("Transcription failed: " +:+ exc_str e) w2 in
      transcribe_audio_sync tmp_name w1 = (Returns ""%string, w3) ∧
      process_audio_chunk audio_bytes w =
        try_finally
          (try_except
             (diarization ← perform_diarization_sync tmp_name;
              extract_insights_sync "" diarization)
             on_error)
          (os_unlink tmp_name)
          w3).
Proof.
  intros Htmp Hunlink. split.
  - destruct (guarded_sub_steps_return tmp_name w1)
      as (insights & w2 & Hrun & _).
    destruct (Hunlink w2) as [w3 Hrm].
    exists insights, w3.
    unfold process_audio_chunk.
    unfold mbind at 1, M_bind at 1. rewrite Htmp.
    unfold try_finally at 1. rewrite Hrun, Hrm. reflexivity.
  - intros e w2 Hraise. simpl. split.
    + by apply transcribe_audio_sync_failed.
    + unfold process_audio_chunk. run_M.
      rewrite Htmp. simpl. rewrite Hraise. simpl.
      repeat next_call; reflexivity.
Qed.

(** C10.  When its two clock calls return, [extract_insights_sync] returns
    exactly one insight, with the fixed action, keywords and sentiment and
    the speaker taken from the ["speaker_1"] entry of the diarization
    (["Unknown"] without one), whatever the transcript.  Consequently a
    segment whose sub-steps run without reaching the outer handler yields
    exactly one such insight, and that list of one is what
    [process_audio_chunk] returns for the segment; whenever the task
    returns, it returns that list of one, or the empty list when the outer
    handler was reached, never more than one insight. *)
Theorem extract_insights_sync_single :
  (∀ transcription diarization w w1 now w2,
      time_sleep 0.5 w = (Returns tt, w1) →
      time_time w1 = (Returns now, w2) →
      extract_insights_sync transcription diarization w =
        (Returns [ {| timestamp := now;
                      speaker := default "Unknown"%string
                                   (diarization !! "speaker_1"%string);
                      action := "Follow up on discussion";
                      keywords := ["follow"; "discussion"]%string;
                      sentiment := "positive" |} ], w2)) ∧
  (∀ tmp_name w insights w',
      sub_steps tmp_name w = (Returns insights, w') →
      ∃ now who,
        insights = [ {| timestamp := now;
                        speaker := who;
                        action := "Follow up on discussion";
                        keywords := ["follow"; "discussion"]%string;
                        sentiment := "positive" |} ]
        ∧ (who = "Speaker 1"%string ∨ who = "Unknown"%string)
        ∧ try_except (sub_steps tmp_name) on_error w
            = (Returns insights, w')) ∧
  (∀ audio_bytes w tmp_name w1 insights w2 w3,
      write_temp_wav audio_bytes w = (Returns tmp_name, w1) →
      sub_steps tmp_name w1 = (Returns insights, w2) →
      os_unlink tmp_name w2 = (Returns tt, w3) →
      process_audio_chunk audio_bytes w = (Returns insights, w3)
      ∧ ∃ now who,
          insights = [ {| timestamp := now;
                          speaker := who;
                          action := "Follow up on discussion";
                          keywords := ["follow"; "discussion"]%string;
                          sentiment := "positive" |} ]
          ∧ (who = "Speaker 1"%string ∨ who = "Unknown"%string)) ∧
  (∀ audio_bytes w tmp_name w1 insights w3,
      write_temp_wav audio_bytes w = (Returns tmp_name, w1) →
      process_audio_chunk audio_bytes w = (Returns insights, w3) →
      (∃ w2 now who,
          sub_steps tmp_name w1 = (Returns insights, w2)
          ∧ insights = [ {| timestamp := now;
                            speaker := who;
                            action := "Follow up on discussion";
                            keywords := ["follow"; "discussion"]%string;
                            sentiment := "positive" |} ]
          ∧ (who = "Speaker 1"%string ∨ who = "Unknown"%string))
      ∨ (∃ e w2,
          sub_steps tmp_name w1 = (Raises e, w2) ∧ insights = [])).
Proof.
  assert (Hsub : ∀ tmp_name w insights w',
    sub_steps tmp_name w = (Returns insights, w') →
    ∃ now who,
      insights = [ {| timestamp := now;
                      speaker := who;
                      action := "Follow up on discussion";
                      keywords := ["follow"; "discussion"]%string;
                      sentiment := "positive" |} ]
      ∧ (who = "Speaker 1"%string ∨ who = "Unknown"%string)
      ∧ try_except (sub_steps tmp_name) on_error w
          = (Returns insights, w')).
  { intros tmp_name w insights w' Hrun.
    assert (Hguard : try_except (sub_steps tmp_name) on_error w
                     = (Returns insights, w'))
      by (unfold try_except at 1; by rewrite Hrun).
    revert Hrun. run_M.
    destruct (model_transcribe tmp_name w) as [[result|e] w1]; simpl;
      (match goal with
       | |- context [time_sleep 0.5 ?w] =>
           destruct (time_sleep 0.5 w) as [[[]|e1] w2]; simpl
       end);
      (match goal with
       | |- context [time_sleep 0.5 ?w] =>
           destruct (time_sleep 0.5 w) as [[[]|e2] w3]; simpl
       end);
      try (match goal with
       | |- context [time_time ?w] =>
           destruct (time_time w) as [[now|e3] w4]; simpl
       end);
      intros [= <- <-]; eexists _, _;
      (split; [reflexivity | split; [|exact Hguard]]);
      rewrite ?lookup_insert_eq, ?lookup_empty; simpl; auto. }
  split; [|split; [exact Hsub|split]].
  - intros transcription diarization w w1 now w2 Hsleep Hnow.
    run_M. by rewrite Hsleep, Hnow.
  - intros audio_bytes w tmp_name w1 insights w2 w3 Htmp Hrun Hunlink.
    destruct (Hsub _ _ _ _ Hrun) as (now & who & Hone & Hwho & Hguard).
    split; [|by exists now, who].
    unfold process_audio_chunk. unfold mbind at 1, M_bind at 1. rewrite Htmp.
    unfold try_finally. by rewrite Hguard, Hunlink.
  - intros audio_bytes w tmp_name w1 insights w3 Htmp.
    unfold process_audio_chunk. unfold mbind at 1, M_bind at 1. rewrite Htmp.
    unfold try_finally, try_except.
    destruct (sub_steps tmp_name w1) as [[l|e] w2] eqn:Hrun.
    + destruct (os_unlink tmp_name w2) as [[[]|e] w4]; [|done].
      intros [= -> ->]. left.
      destruct (Hsub _ _ _ _ Hrun) as (now & who & Hone & Hwho & _).
      by exists w2, now, who.
    + unfold on_error, log_error, mbind, M_bind, mret, M_ret.
      destruct (os_unlink tmp_name _) as [[[]|e'] w4]; [|done].
      intros [= <- <-]. right. by exists e, w2.
Qed.

End WorkerFacts.

(** A worker whose transcription fails still delivers its insight. *)
Lemma process_audio_chunk_absorbs_failures_witness :
  Tasks.process_audio_chunk [x00; x01] ([] : list string)
  = (Returns [ {| timestamp := 1738800000%Q;
                  speaker := "Speaker 1";
                  action := "Follow up on discussion";
                  keywords := ["follow"; "discussion"]%string;
                  sentiment := "positive" |} ],
     ["Transcription failed: Failed to load audio"%string]).
Proof.
  destruct (process_audio_chunk_absorbs_failures
              (world := list string) [x00; x01] [] "/tmp/tmpk3.wav" [])
    as [_ Hfail].
  - reflexivity.
  - intros w'. exists w'. reflexivity.
  - destruct (Hfail (mkExc "RuntimeError" "Failed to load audio") [])
      as [_ Hrun]; [reflexivity|].
    rewrite Hrun. reflexivity.
Defined.

Lemma extract_insights_sync_single_witness :
  Tasks.extract_insights_sync (world := list string) "hello"
    (<["speaker_1"%string := "Ana"%string]> ∅) []
  = (Returns [ {| timestamp := 1738800000%Q;
                  speaker := "Ana";
                  action := "Follow up on discussion";
                  keywords := ["follow"; "discussion"]%string;
                  sentiment := "positive" |} ], [])
  ∧ Tasks.process_audio_chunk (world := list string) [x00; x01] []
    = (Returns [ {| timestamp := 1738800000%Q;
                    speaker := "Speaker 1";
                    action := "Follow up on discussion";
                    keywords := ["follow"; "discussion"]%string;
                    sentiment := "positive" |} ],
       ["Transcription failed: Failed to load audio"%string]).
Proof.
  destruct (extract_insights_sync_single (world := list string))
    as (Hone & _ & Htask & _).
  split.
  - rewrite (Hone "hello"%string (<["speaker_1"%string := "Ana"%string]> ∅)
               [] [] 1738800000%Q []); reflexivity.
  - destruct (Htask [x00; x01] [] "/tmp/tmpk3.wav"%string []
                [ {| timestamp := 1738800000%Q;
                     speaker := "Speaker 1";
                     action := "Follow up on discussion";
                     keywords := ["follow"; "discussion"]%string;
                     sentiment := "positive" |} ]
                ["Transcription failed: Failed to load audio"%string]
                ["Transcription failed: Failed to load audio"%string]
                eq_refl eq_refl eq_refl) as [Hrun _].
    exact Hrun.
Defined.

(** * Properties of the capture loop *)

Section CaptureFacts.
Import Main.
Context {broker : Celery}.

Lemma len_app (a b : bytes) : len (a ++ b) = len a + len b.
Proof. unfold len. rewrite length_app. lia. Qed.

Lemma len_nonneg (a : bytes) : 0 ≤ len a.
Proof. unfold len. lia. Qed.

Lemma put_each_spec insights st :
  put_each insights st =
    (Returns tt,
     mkState (audio_buffer st) (insights_queue st ++ insights) (tasks_sent st),
     map EvPut insights).
Proof.
  revert st. induction insights as [|i rest IH]; intros [buf q k]; simpl.
  - by rewrite app_nil_r.
  - unfold mbind, P_bind, queue_put. simpl. rewrite IH. simpl.
    by rewrite <- app_assoc.
Qed.

(** What one turn does, case by case. *)
Lemma loop_body_spec T chunk st :
  loop_body T chunk st =
    let buf := audio_buffer st ++ chunk in
    let q := insights_queue st in
    let k := tasks_sent st in
    if bool_decide (T ≤ len buf) then
      match delay_outcome k buf with
      | Raises e => (Raises e, mkState [] q k, [])
      | Returns _ =>
          match get_outcome k buf 10 with
          | Returns insights =>
              (Returns tt, mkState [] (q ++ insights) (S k),
               EvDelay k buf :: EvGet k 10
                 :: map EvPut insights ++ [EvSleep 0.1])
          | Raises e =>
              (Returns tt, mkState [] q (S k),
               [EvDelay k buf; EvGet k 10;
                EvLogError ("Celery task processing failed: " +:+ exc_str e);
                EvSleep 0.1])
          end
      end
    else (Returns tt, mkState buf q k, [EvSleep 0.1]).
Proof.
  destruct st as [buf0 q k]. simpl.
  unfold loop_body, offload, buffer_extend, buffer_len,
    buffer_snapshot_clear, delay, to_thread_get, try_except, log_error,
    asyncio_sleep, emit, mbind, P_bind, mret, P_ret. simpl.
  case_bool_decide; simpl; [|done].
  destruct (delay_outcome k (buf0 ++ chunk)); simpl; [|done].
  destruct (get_outcome k (buf0 ++ chunk) 10) as [insights|e]; simpl; [|done].
  rewrite put_each_spec. reflexivity.
Qed.

Lemma capture_loop_cons T b chunk stdout st :
  capture_loop T ((b :: chunk) :: stdout) st =
    match loop_body T (b :: chunk) st with
    | (Returns _, st1, evs) =>
        match capture_loop T stdout st1 with
        | (r, st', tr) => (r, st', EvRead 1024 (b :: chunk) :: evs ++ tr)
        end
    | (Raises e, st1, evs) => (Raises e, st1, EvRead 1024 (b :: chunk) :: evs)
    end.
Proof.
  simpl. unfold mbind, P_bind, emit. simpl.
  destruct (loop_body T (b :: chunk) st) as [[[[]|e] st1] evs]; [|done].
  by destruct (capture_loop T stdout st1) as [[r st'] tr].
Qed.

Lemma loop_body_turn T chunk st o st1 evs :
  loop_body T chunk st = (o, st1, evs) → turn T chunk st o st1 evs.
Proof.
  rewrite loop_body_spec. simpl.
  case_bool_decide as Hcut.
  - destruct (delay_outcome _ _) as [u|e] eqn:Hdelay.
    + destruct (get_outcome _ _ _) as [insights|e] eqn:Hget;
        intros [= <- <- <-]; econstructor; eauto.
    + intros [= <- <- <-]. by constructor.
  - intros [= <- <- <-]. constructor. lia.
Qed.

(** Induction along a run of the loop. *)
Lemma capture_loop_run_ind T
    (Q : list bytes → state → outcome unit → state → list event → Prop) :
  (∀ st, Q [] st (Returns tt) st [EvRead 1024 []]) →
  (∀ stdout st, Q ([] :: stdout) st (Returns tt) st [EvRead 1024 []]) →
  (∀ chunk stdout st st1 evs r st' tr,
      chunk ≠ [] →
      turn T chunk st (Returns tt) st1 evs →
      capture_loop T stdout st1 = (r, st', tr) →
      Q stdout st1 r st' tr →
      Q (chunk :: stdout) st r st' (EvRead 1024 chunk :: evs ++ tr)) →
  (∀ chunk stdout st st1 evs e,
      chunk ≠ [] →
      turn T chunk st (Raises e) st1 evs →
      Q (chunk :: stdout) st (Raises e) st1 (EvRead 1024 chunk :: evs)) →
  ∀ stdout st r st' tr,
    capture_loop T stdout st = (r, st', tr) → Q stdout st r st' tr.
Proof.
  intros Hend Hbreak Hturn Hraise stdout.
  induction stdout as [|[|b chunk] stdout IH]; intros st r st' tr.
  - intros [= <- <- <-]. apply Hend.
  - intros [= <- <- <-]. apply Hbreak.
  - rewrite capture_loop_cons.
    destruct (loop_body T (b :: chunk) st) as [[[[]|e] st1] evs] eqn:Hbody.
    + destruct (capture_loop T stdout st1) as [[r1 st1'] tr1] eqn:Hrest.
      intros [= <- <- <-].
      apply Hturn with st1; auto using loop_body_turn.
    + intros [= <- <- <-]. apply Hraise; auto using loop_body_turn.
Qed.

Lemma submitted_app tr1 tr2 :
  submitted (tr1 ++ tr2) = submitted tr1 ++ submitted tr2.
Proof.
  induction tr1 as [|[] tr1 IH]; simpl; auto. by rewrite IH.
Qed.

Lemma pushed_app tr1 tr2 : pushed (tr1 ++ tr2) = pushed tr1 ++ pushed tr2.
Proof.
  induction tr1 as [|[] tr1 IH]; simpl; auto. by rewrite IH.
Qed.

Lemma submitted_puts insights : submitted (map EvPut insights) = [].
Proof. induction insights; simpl; auto. Qed.

Lemma pushed_puts insights : pushed (map EvPut insights) = insights.
Proof. induction insights; simpl; auto. by f_equal. Qed.

(** The submissions and the new buffer of one turn. *)
Lemma turn_submitted T chunk st o st1 evs :
  turn T chunk st o st1 evs →
  let buf := audio_buffer st ++ chunk in
  (submitted evs = [] ∧ (o = Returns tt → audio_buffer st1 = buf)
     ∧ (len buf < T ∨ ∃ e, o = Raises e)
     ∧ tasks_sent st1 = tasks_sent st)
  ∨ (submitted evs = [buf] ∧ audio_buffer st1 = [] ∧ T ≤ len buf
     ∧ o = Returns tt ∧ tasks_sent st1 = S (tasks_sent st)).
Proof.
  destruct 1; simpl.
  - left. eauto.
  - left. repeat split; eauto. intros [=].
  - right. rewrite submitted_app, submitted_puts. simpl. eauto.
  - right. eauto.
Qed.

Lemma consumed_cons chunk stdout :
  chunk ≠ [] → consumed (chunk :: stdout) = chunk :: consumed stdout.
Proof. by destruct chunk. Qed.

(** The segments of a run lie end to end at the front of the input, and
    each one reaches the threshold. *)
Lemma capture_loop_segments T stdout st r st' tr :
  capture_loop T stdout st = (r, st', tr) →
  Forall (λ s, T ≤ len s) (submitted tr)
  ∧ concat (submitted tr)
      `prefix_of` audio_buffer st ++ concat (consumed stdout)
  ∧ (r = Returns tt →
     audio_buffer st ++ concat (consumed stdout)
     = concat (submitted tr) ++ audio_buffer st')
  ∧ tasks_sent st' = (tasks_sent st + length (submitted tr))%nat.
Proof.
  intros Hrun. pattern stdout, st, r, st', tr.
  eapply capture_loop_run_ind; [..|exact Hrun]; clear.
  - intros st. simpl. rewrite !app_nil_r.
    repeat split; auto using prefix_nil.
  - intros stdout st. simpl. rewrite !app_nil_r.
    repeat split; auto using prefix_nil.
  - intros chunk stdout st st1 evs r st' tr Hne Hturn _ IH.
    rewrite consumed_cons by done.
    simpl. rewrite submitted_app, concat_app.
    destruct IH as (Hall & Hpre & Hall_in & Hsent).
    apply turn_submitted in Hturn; simpl in Hturn.
    destruct Hturn as [(-> & Hst1 & _ & Hk)|(-> & Hst1 & Hhigh & _ & Hk)].
    + specialize (Hst1 eq_refl).
      rewrite Hst1, <- app_assoc in Hpre, Hall_in. simpl.
      repeat split; auto. lia.
    + rewrite Hst1 in Hpre, Hall_in. simpl in *.
      rewrite (app_assoc (audio_buffer st) chunk).
      repeat split.
      * by constructor.
      * rewrite app_nil_r. by apply prefix_app.
      * intros Hr. by rewrite (Hall_in Hr), app_nil_r, !app_assoc.
      * lia.
  - intros chunk stdout st st1 evs e Hne Hturn.
    apply turn_submitted in Hturn; simpl in Hturn.
    destruct Hturn as [(Hnone & _ & _ & Hk)|(_ & _ & _ & [=] & _)].
    simpl. rewrite Hnone. simpl.
    repeat split; auto using prefix_nil; try done. lia.
Qed.

(** With reads of at most 1024 bytes a segment overshoots the threshold
    by less than one read. *)
Lemma capture_loop_overshoot T stdout st r st' tr :
  Forall (λ chunk, len chunk ≤ 1024) stdout →
  len (audio_buffer st) < T →
  capture_loop T stdout st = (r, st', tr) →
  Forall (λ s, len s < T + 1024) (submitted tr).
Proof.
  intros Hreads Hbuf Hrun. revert Hreads Hbuf.
  pattern stdout, st, r, st', tr.
  eapply capture_loop_run_ind; [..|exact Hrun]; clear.
  - constructor.
  - constructor.
  - intros chunk stdout st st1 evs r st' tr Hne Hturn _ IH Hreads Hbuf.
    apply Forall_cons in Hreads as [Hchunk Hreads].
    simpl. rewrite submitted_app.
    pose proof (len_nonneg (audio_buffer st)) as Hpos.
    apply turn_submitted in Hturn; simpl in Hturn.
    destruct Hturn as [(-> & Hst1 & [Hlow|[e [=]]] & _)
                      |(-> & Hst1 & _ & _ & _)]; simpl.
    + apply IH; auto. by rewrite (Hst1 eq_refl).
    + constructor; [rewrite len_app; lia|].
      apply IH; auto. rewrite Hst1. unfold len. simpl. lia.
  - intros chunk stdout st st1 evs e Hne Hturn _ _.
    apply turn_submitted in Hturn; simpl in Hturn.
    destruct Hturn as [(Hnone & _)|(_ & _ & _ & [=] & _)].
    simpl. rewrite Hnone. constructor.
Qed.

(** A broker that accepts every task lets the loop cut exactly what
    [cuts] computes. *)
Lemma capture_loop_cuts T stdout st r st' tr :
  (∀ k payload, ∃ u, delay_outcome k payload = Returns u) →
  capture_loop T stdout st = (r, st', tr) →
  r = Returns tt
  ∧ submitted tr = (cuts T (audio_buffer st) stdout).1
  ∧ audio_buffer st' = (cuts T (audio_buffer st) stdout).2.
Proof.
  intros Haccept Hrun. pattern stdout, st, r, st', tr.
  eapply capture_loop_run_ind; [..|exact Hrun]; clear - Haccept.
  - done.
  - done.
  - intros chunk stdout st st1 evs r st' tr Hne Hturn _ (-> & Hsub & Hbuf).
    simpl. rewrite submitted_app.
    destruct chunk as [|b chunk]; [done|]. cbn [cuts].
    apply turn_submitted in Hturn; simpl in Hturn.
    destruct Hturn as [(-> & Hst1 & [Hlow|[e [=]]] & _)
                      |(-> & Hst1 & Hhigh & _ & _)]; simpl.
    + rewrite bool_decide_eq_false_2 by lia.
      by rewrite <- (Hst1 eq_refl).
    + rewrite bool_decide_eq_true_2 by done.
      rewrite Hst1 in Hsub, Hbuf.
      destruct (cuts T [] stdout) as [segments rest]. simpl in *.
      by rewrite Hsub.
  - intros chunk stdout st st1 evs e Hne Hturn.
    inversion Hturn as [|e' _ Hrefuse| |]; subst.
    destruct (Haccept (tasks_sent st) (audio_buffer st ++ chunk)) as [u Hu].
    congruence.
Qed.

Lemma process_video_stream_spec stream_url stdout st :
  process_video_stream stream_url stdout st =
    let spawn := EvSpawn ["ffmpeg"; "-i"; stream_url; "-f"; "wav"; "pipe:1"]%string in
    match capture_loop THRESHOLD stdout
            (mkState [] (insights_queue st) (tasks_sent st)) with
    | (Returns _, st', tr) => (Returns tt, st', spawn :: tr ++ [EvWait])
    | (Raises e, st', tr) => (Raises e, st', spawn :: tr)
    end.
Proof.
  unfold process_video_stream, mbind, P_bind, emit. simpl.
  by destruct (capture_loop _ _ _) as [[[[]|e] st'] tr].
Qed.

Lemma submitted_process_video_stream stream_url stdout st :
  submitted (process_video_stream stream_url stdout st).2
  = submitted (capture_loop THRESHOLD stdout
                 (mkState [] (insights_queue st) (tasks_sent st))).2.
Proof.
  rewrite process_video_stream_spec. simpl.
  destruct (capture_loop _ _ _) as [[[[]|e] st'] tr]; simpl; [|done].
  rewrite submitted_app. simpl. by rewrite app_nil_r.
Qed.


Lemma capture_loop_groups T stdout st r st' tr :
  capture_loop T stdout st = (r, st', tr) →
  ∀ pending, audio_buffer st = concat pending →
  ∃ groups : list (list bytes),
    submitted tr = map (@concat byte) groups
    ∧ concat groups `prefix_of` pending ++ consumed stdout.
Proof.
  intros Hrun. pattern stdout, st, r, st', tr.
  eapply capture_loop_run_ind; [..|exact Hrun]; clear.
  - intros st pending _. exists []. split; [done|apply prefix_nil].
  - intros stdout st pending _. exists []. split; [done|apply prefix_nil].
  - intros chunk stdout st st1 evs r st' tr Hne Hturn _ IH pending Hpending.
    rewrite consumed_cons by done. simpl. rewrite submitted_app.
    assert (Hbuf : audio_buffer st ++ chunk = concat (pending ++ [chunk])).
    { rewrite concat_app, Hpending. simpl. by rewrite app_nil_r. }
    replace (pending ++ chunk :: consumed stdout)
      with ((pending ++ [chunk]) ++ consumed stdout)
      by (by rewrite <- app_assoc).
    apply turn_submitted in Hturn; simpl in Hturn.
    destruct Hturn as [(-> & Hst1 & _)|(-> & Hst1 & _)].
    + destruct (IH (pending ++ [chunk])) as (groups & Hsub & Hpre).
      { by rewrite (Hst1 eq_refl). }
      by exists groups.
    + destruct (IH []) as (groups & Hsub & Hpre); [done|].
      exists ((pending ++ [chunk]) :: groups). simpl. split.
      * by rewrite Hbuf, Hsub.
      * by apply prefix_app.
  - intros chunk stdout st st1 evs e Hne Hturn pending _.
    apply turn_submitted in Hturn; simpl in Hturn.
    destruct Hturn as [(Hnone & _)|(_ & _ & _ & [=] & _)].
    exists []. simpl. rewrite Hnone. split; [done|apply prefix_nil].
Qed.



(** C9.  With reads of at most 1024 bytes, every segment
    [process_video_stream] submits holds at least 100000 and at most
    100000 + 1023 bytes, and is made of whole consecutive reads: its size
    is the sum of theirs, so it is 100000 only when they add up to it. *)
Theorem segment_overshoot_bound stream_url stdout st :
  Forall (λ chunk, len chunk ≤ 1024) stdout →
  let tr := (process_video_stream stream_url stdout st).2 in
  Forall (λ s, 100000 ≤ len s ≤ 100000 + 1023) (submitted tr)
  ∧ ∃ groups : list (list bytes),
      submitted tr = map (@concat byte) groups
      ∧ concat groups `prefix_of` consumed stdout.
Proof.
  intros Hreads tr. subst tr.
  rewrite submitted_process_video_stream.
  destruct (capture_loop _ _ _) as [[r st'] tr] eqn:Hrun.
  change (submitted (r, st', tr).2) with (submitted tr).
  split.
  - destruct (capture_loop_segments _ _ _ _ _ _ Hrun) as (Hlow & _).
    assert (Hhigh : Forall (λ s, len s < THRESHOLD + 1024) (submitted tr)).
    { eapply capture_loop_overshoot; [exact Hreads| |exact Hrun].
      unfold len, THRESHOLD. simpl. lia. }
    apply Forall_forall. intros s Hs.
    rewrite Forall_forall in Hlow, Hhigh.
    specialize (Hlow s Hs). specialize (Hhigh s Hs).
    unfold THRESHOLD in *. lia.
  - by apply (capture_loop_groups _ _ _ _ _ _ Hrun []).
Qed.


Lemma awaited_puts insights tr :
  awaited_at_once tr → awaited_at_once (map EvPut insights ++ tr).
Proof. induction insights; simpl; auto. Qed.

Lemma capture_loop_awaited T stdout st r st' tr :
  capture_loop T stdout st = (r, st', tr) →
  ∀ tail, awaited_at_once tail → awaited_at_once (tr ++ tail).
Proof.
  intros Hrun. pattern stdout, st, r, st', tr.
  eapply capture_loop_run_ind; [..|exact Hrun]; clear.
  - done.
  - done.
  - intros chunk stdout st st1 evs r st' tr _ Hturn _ IH tail Htail.
    specialize (IH tail Htail).
    inversion Hturn; subst; simpl; rewrite <- ?app_assoc; simpl; auto.
    + split; [eauto|]. by apply awaited_puts.
    + split; [eauto|]. done.
  - intros chunk stdout st st1 evs e _ Hturn tail Htail.
    inversion Hturn; subst. done.
Qed.

Lemma awaited_not_forgotten tr :
  awaited_at_once tr → submitted tr ≠ [] → fire_and_forget tr = false.
Proof.
  induction tr as [|ev tr IH]; [done|].
  destruct ev; simpl; auto.
  intros [[tr'' ->] _] _. simpl.
  by rewrite bool_decide_eq_true_2.
Qed.

(** C2 (amended).  In every run of [process_video_stream] each submission
    is directly followed, in the loop's own control flow, by the wait of
    at most ten seconds for that task's result ([asyncio.to_thread] keeps
    the event loop free, the coroutine itself is suspended); the next
    read comes only after it.  So a run that submits anything is not
    fire-and-forget. *)
Theorem submission_is_followed_by_its_wait stream_url stdout st :
  let tr := (process_video_stream stream_url stdout st).2 in
  awaited_at_once tr
  ∧ (submitted tr ≠ [] → fire_and_forget tr = false).
Proof.
  intros tr.
  assert (Hawaited : awaited_at_once tr).
  { subst tr. rewrite process_video_stream_spec. cbv zeta.
    destruct (capture_loop _ _ _) as [[[[]|e] st'] tr] eqn:Hrun; simpl.
    - by apply (capture_loop_awaited _ _ _ _ _ _ Hrun [EvWait]).
    - rewrite <- (app_nil_r tr).
      by apply (capture_loop_awaited _ _ _ _ _ _ Hrun []). }
  split; [done|]. by apply awaited_not_forgotten.
Qed.

(** C5.  When the [get] of a submitted segment raises (no result within
    the 10 seconds, or a backend error), that turn of the loop puts
    nothing on the queue, logs the failure and returns normally; the loop
    then goes on with the rest of the stream from an empty buffer and the
    unchanged queue, and the segment is not submitted again. *)
Theorem failed_get_is_dropped T b chunk stdout st u e :
  let buf := audio_buffer st ++ b :: chunk in
  let k := tasks_sent st in
  let evs :=
    [EvDelay k buf; EvGet k 10;
     EvLogError ("Celery task processing failed: " +:+ exc_str e);
     EvSleep 0.1] in
  let st1 := mkState [] (insights_queue st) (S k) in
  T ≤ len buf →
  delay_outcome k buf = Returns u →
  get_outcome k buf 10 = Raises e →
  loop_body T (b :: chunk) st = (Returns tt, st1, evs)
  ∧ pushed evs = []
  ∧ capture_loop T ((b :: chunk) :: stdout) st =
      match capture_loop T stdout st1 with
      | (r, st', tr) => (r, st', EvRead 1024 (b :: chunk) :: evs ++ tr)
      end.
Proof.
  intros buf k evs st1 Hcut Hdelay Hget.
  assert (Hbody : loop_body T (b :: chunk) st = (Returns tt, st1, evs)).
  { rewrite loop_body_spec. cbv zeta. fold buf k.
    by rewrite bool_decide_eq_true_2, Hdelay, Hget. }
  split; [done|]. split; [done|].
  by rewrite capture_loop_cons, Hbody.
Qed.

(** C7.  When the [get] of a submitted segment returns, that turn puts
    every insight of the result on the queue, in the order of the result
    and once each.  Over a whole run the queue grows by exactly the
    results of the gets that returned, segment after segment. *)
Theorem collector_pushes_in_order :
  (∀ T b chunk st u insights,
      let buf := audio_buffer st ++ b :: chunk in
      let k := tasks_sent st in
      T ≤ len buf →
      delay_outcome k buf = Returns u →
      get_outcome k buf 10 = Returns insights →
      loop_body T (b :: chunk) st =
        (Returns tt,
         mkState [] (insights_queue st ++ insights) (S k),
         EvDelay k buf :: EvGet k 10 :: map EvPut insights ++ [EvSleep 0.1]))
  ∧ (∀ T stdout st,
      let '(_, st', tr) := capture_loop T stdout st in
      pushed tr = collected (tasks_sent st) (submitted tr)
      ∧ insights_queue st' = insights_queue st ++ pushed tr).
Proof.
  split.
  - intros T b chunk st u insights buf k Hcut Hdelay Hget.
    rewrite loop_body_spec. cbv zeta. fold buf k.
    by rewrite bool_decide_eq_true_2, Hdelay, Hget.
  - intros T stdout st.
    destruct (capture_loop T stdout st) as [[r st'] tr] eqn:Hrun.
    pattern stdout, st, r, st', tr.
    eapply capture_loop_run_ind; [..|exact Hrun]; clear.
    + intros st. simpl. by rewrite app_nil_r.
    + intros stdout st. simpl. by rewrite app_nil_r.
    + intros chunk stdout st st1 evs r st' tr _ Hturn _ [IHp IHq].
      inversion Hturn as [|?|? insights ? ? Hget|? ? ? ? Hget]; subst;
        simpl in *.
      * done.
      * rewrite <- !app_assoc. simpl.
        rewrite pushed_app, pushed_puts, submitted_app, submitted_puts.
        simpl. rewrite Hget, IHq, IHp. split; [done|].
        by rewrite <- app_assoc.
      * by rewrite Hget.
    + intros chunk stdout st st1 evs e _ Hturn.
      inversion Hturn; subst. simpl. by rewrite app_nil_r.
Qed.

End CaptureFacts.

(** * Properties of the HTTP trigger and of the subscribers *)

Section EndpointFacts.
Import Main.

(** C8.  For every request, [analyze_video] answers
    [{"status": "started", "video_url": <the submitted url>}], having only
    logged a line and queued [process_video_stream] on that url as a
    background task: no step of the pipeline is taken by the endpoint. *)
Theorem analyze_video_starts_in_background request background_tasks :
  let '(response, tasks, evs) := analyze_video request background_tasks in
  response !! "status"%string = Some "started"%string
  ∧ response !! "video_url"%string = Some (video_url request)
  ∧ dom response = ({["status"%string]} ∪ {["video_url"%string]} : gset string)
  ∧ tasks = background_tasks
              ++ [Call_process_video_stream (video_url request)]
  ∧ Forall (λ ev, pipeline_event ev = false) evs
  ∧ ∀ (broker : Celery) stdout,
      run_background_task
        (Call_process_video_stream (video_url request)) stdout
      = process_video_stream (video_url request) stdout.
Proof.
  simpl. repeat split. by repeat constructor.
Qed.

Lemma puts_cons a schedule : puts (a :: schedule) = puts [a] ++ puts schedule.
Proof. by destruct a. Qed.

Lemma step_history a h h' :
  step a h = Some h' →
  (taken h').*2 ++ queue h' = ((taken h).*2 ++ queue h) ++ puts [a].
Proof.
  destruct a as [ws|insight|ws|ws|ws e]; simpl.
  - destruct (handlers h !! ws); intros [= <-]; simpl.
    by rewrite app_nil_r.
  - intros [= <-]. simpl. by rewrite app_assoc.
  - destruct (handlers h !! ws) as [[| |]|]; try done.
    destruct (queue h) as [|insight rest]; intros [= <-]; simpl.
    rewrite fmap_app, app_nil_r, <- app_assoc. done.
  - destruct (handlers h !! ws) as [[| |]|]; intros [= <-]; simpl.
    by rewrite app_nil_r.
  - destruct (handlers h !! ws) as [[| |]|]; intros [= <-]; simpl.
    by rewrite app_nil_r.
Qed.

Lemma run_history schedule h h' :
  run schedule h = Some h' →
  (taken h').*2 ++ queue h' = ((taken h).*2 ++ queue h) ++ puts schedule.
Proof.
  revert h. induction schedule as [|a schedule IH]; intros h; cbn [run].
  - intros [= <-]. simpl. by rewrite app_nil_r.
  - destruct (step a h) as [h1|] eqn:Hstep; [|done].
    intros Hrun. rewrite (IH _ Hrun), (step_history _ _ _ Hstep).
    by rewrite (puts_cons a schedule), app_assoc.
Qed.

Lemma step_accounted a h h' :
  step a h = Some h' → accounted h → accounted h'.
Proof.
  intros Hstep (unsent & Hperm & Hheld).
  destruct a as [ws|insight|ws|ws|ws e]; simpl in Hstep.
  - destruct (handlers h !! ws) eqn:Hws; [done|].
    injection Hstep as <-. exists unsent. simpl. split; [done|].
    intros ws' i. rewrite lookup_insert_Some.
    intros [[_ [=]]|[_ H]]; eauto.
  - injection Hstep as <-. by exists unsent.
  - destruct (handlers h !! ws) as [[| |]|] eqn:Hws; try done.
    destruct (queue h) as [|insight rest]; [done|].
    injection Hstep as <-. exists (unsent ++ [(ws, insight)]). simpl. split.
    + by rewrite Hperm, app_assoc.
    + intros ws' i. rewrite lookup_insert_Some.
      intros [[<- [= <-]]|[_ H]]; set_solver.
  - destruct (handlers h !! ws) as [[|insight|]|] eqn:Hws; try done.
    injection Hstep as <-.
    destruct (list_elem_of_split _ _ (Hheld _ _ Hws)) as (u1 & u2 & Hu).
    exists (u1 ++ u2). simpl. split.
    + rewrite Hperm, Hu, <- !app_assoc. apply Permutation_app_head.
      simpl. by rewrite Permutation_middle.
    + intros ws' i. rewrite lookup_insert_Some.
      intros [[_ [=]]|[Hne H]].
      apply Hheld in H. rewrite Hu in H.
      rewrite elem_of_app, elem_of_cons in H. rewrite elem_of_app.
      destruct H as [H|[[= -> ->]|H]]; auto. done.
  - destruct (handlers h !! ws) as [[|insight|]|] eqn:Hws; try done.
    injection Hstep as <-. exists unsent. simpl. split; [done|].
    intros ws' i. rewrite lookup_insert_Some.
    intros [[_ [=]]|[_ H]]; eauto.
Qed.

Lemma run_accounted schedule h h' :
  run schedule h = Some h' → accounted h → accounted h'.
Proof.
  revert h. induction schedule as [|a schedule IH]; intros h; simpl.
  - by intros [= <-].
  - destruct (step a h) as [h1|] eqn:Hstep; [|done].
    eauto using step_accounted.
Qed.

Lemma accounted_hub0 : accounted hub0.
Proof.
  exists []. split; [done|]. intros ws i. unfold hub0. simpl.
  by rewrite lookup_empty.
Qed.

Lemma run_sent schedule h :
  run schedule hub0 = Some h →
  (taken h).*2 ++ queue h = puts schedule ∧ sent h ⊆+ taken h.
Proof.
  intros Hrun. split.
  - by rewrite (run_history _ _ _ Hrun).
  - destruct (run_accounted _ _ _ Hrun accounted_hub0) as (unsent & Hperm & _).
    rewrite Hperm. by apply submseteq_inserts_r.
Qed.

(** C3 (amended).  In every schedule of puts, gets and sends around the
    one queue, the insights put so far are, in put order, those taken by
    some connection followed by those still queued: a [get] removes what
    it returns, so each insight is taken by one connection only.  What
    the sockets were sent is part of what was taken; no more messages are
    sent than insights were put. *)
Theorem insight_goes_to_one_subscriber schedule h :
  run schedule hub0 = Some h →
  (taken h).*2 ++ queue h = puts schedule
  ∧ sent h ⊆+ taken h
  ∧ (length (sent h) ≤ length (puts schedule))%nat.
Proof.
  intros Hrun. destruct (run_sent _ _ Hrun) as [Hhist Hsent].
  repeat split; [done|done|].
  apply submseteq_length in Hsent.
  rewrite <- Hhist, length_app, length_fmap. lia.
Qed.

End EndpointFacts.

(** * The statements at work on concrete runs *)

Section Runs.
Import Main Fixture.

Lemma full_reads_bounded n : Forall (λ chunk, len chunk ≤ 1024) (full_reads n).
Proof.
  unfold full_reads. apply Forall_app. split.
  - apply Forall_replicate. by vm_compute.
  - repeat constructor. unfold zeros, len.
    rewrite length_replicate.
    destruct (Z.eq_dec n 0) as [->|Hn]; [by vm_compute|].
    pose proof (Z.mod_pos_bound n 1024 ltac:(lia)). lia.
Qed.



(** C2 as stated fails: in the run on 150000 bytes the loop waits for
    the result of the task it has just submitted before it reads again. *)
Lemma capture_loop_waits_for_result :
  fire_and_forget
    (process_video_stream (broker := late_first) room (full_reads 150000)
       fresh).2 = false.
Proof. vm_compute. reflexivity. Qed.

Lemma submission_is_followed_by_its_wait_witness :
  let tr :=
    (process_video_stream (broker := late_first) room (full_reads 150000)
       fresh).2 in
  submitted tr ≠ [] ∧ awaited_at_once tr ∧ fire_and_forget tr = false.
Proof.
  intros tr.
  pose proof (submission_is_followed_by_its_wait (broker := late_first)
                room (full_reads 150000) fresh) as H.
  cbv zeta in H. fold tr in H. destruct H as [Hawaited Hwait].
  assert (Hone : length (submitted tr) = 1%nat).
  { vm_compute. reflexivity. }
  assert (Hsome : submitted tr ≠ []).
  { intros Hnone. rewrite Hnone in Hone. discriminate Hone. }
  split; [exact Hsome|]. split; [exact Hawaited|]. exact (Hwait Hsome).
Defined.

Lemma segment_overshoot_bound_witness :
  let tr :=
    (process_video_stream (broker := late_first) room (full_reads 150000)
       fresh).2 in
  map len (submitted tr) = [100352]
  ∧ Forall (λ s, 100000 ≤ len s ≤ 100000 + 1023) (submitted tr).
Proof.
  intros tr.
  pose proof (segment_overshoot_bound (broker := late_first) room
                (full_reads 150000) fresh (full_reads_bounded 150000)) as H.
  cbv zeta in H. fold tr in H. destruct H as [Hbound _].
  split; [|exact Hbound]. vm_compute. reflexivity.
Defined.




Lemma failed_get_is_dropped_witness :
  capture_loop (broker := late_first) 4 [[x01; x02; x03; x04]; [x05]] fresh
  = (Returns tt,
     mkState [x05] [] 1,
     [EvRead 1024 [x01; x02; x03; x04];
      EvDelay 0 [x01; x02; x03; x04];
      EvGet 0 10;
      EvLogError "Celery task processing failed: The operation timed out.";
      EvSleep 0.1;
      EvRead 1024 [x05];
      EvSleep 0.1;
      EvRead 1024 []]).
Proof.
  destruct (failed_get_is_dropped (broker := late_first) 4 x01 [x02; x03; x04]
              [[x05]] fresh tt
              (mkExc "TimeoutError" "The operation timed out."))
    as (_ & _ & Hloop).
  - unfold len. simpl. lia.
  - reflexivity.
  - reflexivity.
  - rewrite Hloop. reflexivity.
Defined.

Lemma collector_pushes_in_order_witness :
  let st := mkState [] [note "Speaker 1" "earlier"] 1 in
  loop_body (broker := late_first) 4 [x01; x02; x03; x04] st
  = (Returns tt,
     mkState [] [note "Speaker 1" "earlier";
                 note "Speaker 1" "first"; note "Speaker 2" "second"] 2,
     [EvDelay 1 [x01; x02; x03; x04];
      EvGet 1 10;
      EvPut (note "Speaker 1" "first");
      EvPut (note "Speaker 2" "second");
      EvSleep 0.1]).
Proof.
  intros st.
  destruct (collector_pushes_in_order (broker := late_first)) as [Hturn _].
  rewrite (Hturn 4 x01 [x02; x03; x04] st tt
             [note "Speaker 1" "first"; note "Speaker 2" "second"]).
  - reflexivity.
  - unfold len. simpl. lia.
  - reflexivity.
  - reflexivity.
Defined.

(** C3 as stated fails: with two subscribers attached when one insight is
    put, no schedule without a further put has both of them receive it;
    and a subscriber attached after the put receives the insight put
    before it came. *)
Lemma broadcast_fails :
  let insight := note "Speaker 1" "Follow up on discussion" in
  (¬ ∃ schedule h,
       puts schedule = []
       ∧ run ([Attach 1; Attach 2; Put insight] ++ schedule) hub0 = Some h
       ∧ insight ∈ received 1 h
       ∧ insight ∈ received 2 h)
  ∧ received 1 <$> run [Put insight; Attach 1; Get 1; SendOk 1] hub0
    = Some [insight].
Proof.
  intros insight. split; [|reflexivity].
  intros (schedule & h & Hquiet & Hrun & H1 & H2).
  destruct (run_sent _ _ Hrun) as [Hhist Hsent].
  assert (Hputs : puts ([Attach 1; Attach 2; Put insight] ++ schedule)
                  = [insight]) by (simpl; by rewrite Hquiet).
  rewrite Hputs in Hhist.
  assert (Hlen : (length (sent h) ≤ 1)%nat).
  { apply submseteq_length in Hsent.
    apply (f_equal length) in Hhist.
    rewrite length_app, length_fmap in Hhist. simpl in Hhist. lia. }
  assert (Hin : ∀ ws, insight ∈ received ws h → (ws, insight) ∈ sent h).
  { intros ws. unfold received.
    rewrite list_elem_of_fmap. intros ([ws' i] & -> & Hm).
    apply list_elem_of_filter in Hm as [<- Hm]. exact Hm. }
  apply Hin in H1, H2.
  destruct (sent h) as [|m [|m' rest]]; simpl in Hlen; [|..|lia].
  - by apply elem_of_nil in H1.
  - apply list_elem_of_singleton in H1, H2. congruence.
Qed.

Lemma insight_goes_to_one_subscriber_witness :
  let insight := note "Speaker 1" "Follow up on discussion" in
  let schedule := [Attach 1; Attach 2; Put insight; Get 2; SendOk 2] in
  match run schedule hub0 with
  | Some h =>
      sent h = [(2%nat, insight)] ∧ queue h = []
      ∧ (length (sent h) ≤ length (puts schedule))%nat
  | None => False
  end.
Proof.
  intros insight schedule.
  destruct (run schedule hub0) as [h|] eqn:Hrun.
  - destruct (insight_goes_to_one_subscriber schedule h Hrun)
      as (_ & _ & Hcount).
    vm_compute in Hrun. injection Hrun as <-.
    split; [reflexivity|]. split; [reflexivity|]. exact Hcount.
  - vm_compute in Hrun. discriminate Hrun.
Defined.

End Runs.

(** * Further properties of the segment worker *)

Section WorkerMore.
Import Tasks.
Context {world : Type} `{!Library world}.

(** X1.  [transcribe_audio_sync] never raises: it returns the value under
    ["text"] of what the model returns, [""] when that key is missing, and
    [""] after one logged line when the model raises. *)
Theorem transcribe_audio_sync_total audio_path w :
  match model_transcribe audio_path w with
  | (Returns result, w') =>
      transcribe_audio_sync audio_path w
      = (Returns (match result !! "text"%string with
                  | Some text => text
                  | None => ""%string
                  end), w')
  | (Raises e, w') =>
      transcribe_audio_sync audio_path w
      = (Returns ""%string,
         logger_error ("Transcription failed: " +:+ exc_str e) w')
  end.
Proof.
  unfold transcribe_audio_sync, try_except, mbind, M_bind, mret, M_ret,
    log_error.
  destruct (model_transcribe audio_path w) as [[result|e] w']; [|done].
  by destruct (result !! "text"%string).
Qed.

(** X2.  [perform_diarization_sync] never raises: it returns the two fixed
    speaker labels when the placeholder's sleep returns, and the empty
    mapping after one logged line when it raises. *)
Theorem perform_diarization_sync_total audio_path w :
  ∃ d w',
    perform_diarization_sync audio_path w = (Returns d, w')
    ∧ match time_sleep 0.5 w with
      | (Returns _, w1) =>
          w' = w1
          ∧ d !! "speaker_1"%string = Some "Speaker 1"%string
          ∧ d !! "speaker_2"%string = Some "Speaker 2"%string
          ∧ dom d = ({["speaker_1"%string]} ∪ {["speaker_2"%string]} : gset string)
      | (Raises e, w1) =>
          w' = logger_error ("Diarization failed: " +:+ exc_str e) w1
          ∧ d = ∅
      end.
Proof.
  unfold perform_diarization_sync, diarization_processing, try_except,
    mbind, M_bind, mret, M_ret, log_error.
  destruct (time_sleep 0.5 w) as [[[]|e] w1]; eexists _, _; (split; [done|]).
  - repeat split.
  - done.
Qed.

(** X3.  Once the temporary file is written, [process_audio_chunk] ends by
    removing it on every path: [os.unlink] runs on the world the guarded
    sub-steps leave, and when it raises, its exception replaces the
    insights as the outcome of the task. *)
Theorem process_audio_chunk_unlinks audio_bytes w tmp_name w1 :
  write_temp_wav audio_bytes w = (Returns tmp_name, w1) →
  ∃ insights w2,
    try_except (sub_steps tmp_name) on_error w1 = (Returns insights, w2)
    ∧ process_audio_chunk audio_bytes w =
        match os_unlink tmp_name w2 with
        | (Returns _, w3) => (Returns insights, w3)
        | (Raises e, w3) => (Raises e, w3)
        end.
Proof.
  intros Htmp.
  destruct (guarded_sub_steps_return tmp_name w1) as (insights & w2 & Hrun & _).
  exists insights, w2. split; [done|].
  unfold process_audio_chunk. unfold mbind at 1, M_bind at 1. rewrite Htmp.
  unfold try_finally. by rewrite Hrun.
Qed.

(** X4.  The [with] block closes the file it created on every path; when
    writing or flushing raises, the task raises that exception (or the one
    of [close]) without running a sub-step and without removing the file. *)
Theorem write_failure_propagates audio_bytes w tmp_name w0 e w1 :
  NamedTemporaryFile ".wav" w = (Returns tmp_name, w0) →
  (file_write tmp_name audio_bytes;; file_flush tmp_name) w0 = (Raises e, w1) →
  ∃ e' w2,
    (file_close tmp_name w1 = (Returns tt, w2) ∧ e' = e
     ∨ file_close tmp_name w1 = (Raises e', w2))
    ∧ write_temp_wav audio_bytes w = (Raises e', w2)
    ∧ process_audio_chunk audio_bytes w = (Raises e', w2).
Proof.
  intros Hnew Hwrite.
  assert (Hwith : ∃ e' w2,
    (file_close tmp_name w1 = (Returns tt, w2) ∧ e' = e
     ∨ file_close tmp_name w1 = (Raises e', w2))
    ∧ write_temp_wav audio_bytes w = (Raises e', w2)).
  { unfold write_temp_wav. unfold mbind at 1, M_bind at 1. rewrite Hnew.
    unfold try_finally.
    assert (Hbody : (file_write tmp_name audio_bytes;; file_flush tmp_name;;
                     mret tmp_name) w0 = (Raises e, w1)).
    { revert Hwrite. unfold mbind, M_bind, mret, M_ret.
      destruct (file_write tmp_name audio_bytes w0) as [[[]|e0] w0'];
        [|by intros [= -> ->]].
      destruct (file_flush tmp_name w0') as [[[]|e1] w0''];
        [done|by intros [= -> ->]]. }
    rewrite Hbody.
    destruct (file_close tmp_name w1) as [[[]|e'] w2]; eauto 10. }
  destruct Hwith as (e' & w2 & Hclose & Hwith).
  exists e', w2. repeat split; [done|done|].
  unfold process_audio_chunk, mbind, M_bind. by rewrite Hwith.
Qed.

(** X5.  The guarded sub-steps give an empty list exactly when insight
    extraction raises: transcription and diarization always hand a
    transcript and a mapping on, and extraction then yields one insight or,
    when it raises, the empty list after one logged line. *)
Theorem empty_result_iff_extraction_raises tmp_name w :
  ∃ text w1 d w2,
    transcribe_audio_sync tmp_name w = (Returns text, w1)
    ∧ perform_diarization_sync tmp_name w1 = (Returns d, w2)
    ∧ match extract_insights_sync text d w2 with
      | (Returns insights, w3) =>
          try_except (sub_steps tmp_name) on_error w = (Returns insights, w3)
          ∧ length insights = 1%nat
      | (Raises e, w3) =>
          try_except (sub_steps tmp_name) on_error w
          = (Returns [],
             logger_error ("Error processing audio chunk: " +:+ exc_str e) w3)
      end.
Proof.
  destruct (transcribe_audio_sync_returns tmp_name w) as (text & w1 & Ht).
  destruct (perform_diarization_sync_returns tmp_name w1) as (d & w2 & Hd).
  exists text, w1, d, w2. split; [done|]. split; [done|].
  unfold try_except at 1 2, sub_steps.
  unfold mbind at 1 4, M_bind at 1 4. rewrite Ht.
  unfold mbind at 1 3, M_bind at 1 3. rewrite Hd.
  unfold mbind at 1 2, M_bind at 1 2.
  destruct (extract_insights_sync text d w2) as [[insights|e] w3] eqn:Hx.
  - split; [done|]. revert Hx.
    unfold extract_insights_sync, mbind, M_bind, mret, M_ret.
    destruct (time_sleep 0.5 w2) as [[[]|e1] w4]; [|done].
    destruct (time_time w4) as [[now|e2] w5]; [|done].
    by intros [= <- <-].
  - done.
Qed.

(** X6.  In a run of the sub-steps that returns, the one insight names
    ["Unknown"] as speaker exactly when the diarization placeholder raised,
    and ["Speaker 1"] otherwise. *)
Theorem unknown_speaker_iff_diarization_failed tmp_name w insights w' :
  sub_steps tmp_name w = (Returns insights, w') →
  ∃ insight text w1,
    insights = [insight]
    ∧ transcribe_audio_sync tmp_name w = (Returns text, w1)
    ∧ match time_sleep 0.5 w1 with
      | (Returns _, _) => speaker insight = "Speaker 1"%string
      | (Raises _, _) => speaker insight = "Unknown"%string
      end.
Proof.
  destruct (transcribe_audio_sync_returns tmp_name w) as (text & w1 & Ht).
  unfold sub_steps. unfold mbind at 1, M_bind at 1. rewrite Ht.
  unfold perform_diarization_sync, diarization_processing,
    extract_insights_sync, try_except, log_error, mbind, M_bind, mret, M_ret.
  destruct (time_sleep 0.5 w1) as [[[]|e] w2] eqn:Hsleep.
  - destruct (time_sleep 0.5 w2) as [[[]|e1] w3]; [|done].
    destruct (time_time w3) as [[now|e2] w4]; [|done].
    intros [= <- <-]. eexists _, text, w1.
    split; [reflexivity|]. split; [reflexivity|].
    rewrite Hsleep. simpl. by rewrite lookup_insert_eq.
  - destruct (time_sleep 0.5 (logger_error _ w2)) as [[[]|e1] w3];
      [|intros [=]].
    destruct (time_time w3) as [[now|e2] w4]; [|intros [=]].
    intros [= <- <-]. eexists _, text, w1.
    split; [reflexivity|]. split; [reflexivity|].
    rewrite Hsleep. simpl. by rewrite lookup_empty.
Qed.

End WorkerMore.

Lemma process_audio_chunk_unlinks_witness :
  Tasks.process_audio_chunk (Library0 := Samples.clockless_worker) [x00; x01] []
  = (Returns [], ["Error processing audio chunk: clock unavailable"%string]).
Proof.
  destruct (process_audio_chunk_unlinks (Library0 := Samples.clockless_worker)
              [x00; x01] [] "/tmp/tmpk3.wav" [] eq_refl)
    as (insights & w2 & Hguard & Hrun).
  rewrite Hrun. vm_compute in Hguard. injection Hguard as <- <-. reflexivity.
Defined.

Lemma write_failure_propagates_witness :
  Tasks.process_audio_chunk (Library0 := Samples.diskless_worker) [x00; x01] []
  = (Raises (mkExc "OSError" "No space left on device"),
     ["write"%string; "close"%string]).
Proof.
  destruct (write_failure_propagates (Library0 := Samples.diskless_worker)
              [x00; x01] [] "/tmp/tmpk3.wav" []
              (mkExc "OSError" "No space left on device") ["write"%string]
              eq_refl eq_refl)
    as (e' & w2 & Hclose & _ & Hrun).
  rewrite Hrun.
  destruct Hclose as [[Hclose ->]|Hclose];
    vm_compute in Hclose; [|discriminate Hclose].
  injection Hclose as <-. reflexivity.
Defined.

Lemma unknown_speaker_iff_diarization_failed_witness :
  let expected :=
    {| timestamp := 1738800000%Q; speaker := "Unknown";
       action := "Follow up on discussion";
       keywords := ["follow"; "discussion"]%string;
       sentiment := "positive" |} in
  Tasks.sub_steps (Library0 := Samples.restless_worker) "/tmp/tmpk3.wav" []
  = (Returns [expected], ["Diarization failed: interrupted"%string])
  ∧ ∃ insight, [expected] = [insight] ∧ speaker insight = "Unknown"%string.
Proof.
  intros expected. split; [reflexivity|].
  destruct (unknown_speaker_iff_diarization_failed
              (Library0 := Samples.restless_worker) "/tmp/tmpk3.wav" []
              [expected] ["Diarization failed: interrupted"%string] eq_refl)
    as (insight & text & w1 & Hone & Ht & Hwho).
  exists insight. split; [exact Hone|].
  vm_compute in Ht. injection Ht as <- <-. exact Hwho.
Defined.

(** * Further properties of the capture loop *)

Section CaptureMore.
Import Main Trace.
Context {broker : Celery}.

Lemma reads_app tr1 tr2 : reads (tr1 ++ tr2) = reads tr1 ++ reads tr2.
Proof. induction tr1 as [|[] tr1 IH]; simpl; auto. by rewrite IH. Qed.

Lemma sleeps_app tr1 tr2 : sleeps (tr1 ++ tr2) = sleeps tr1 ++ sleeps tr2.
Proof. induction tr1 as [|[] tr1 IH]; simpl; auto. by rewrite IH. Qed.

Lemma awaited_app tr1 tr2 : awaited (tr1 ++ tr2) = awaited tr1 ++ awaited tr2.
Proof. induction tr1 as [|[] tr1 IH]; simpl; auto. by rewrite IH. Qed.

Lemma logged_app tr1 tr2 : logged (tr1 ++ tr2) = logged tr1 ++ logged tr2.
Proof. induction tr1 as [|[] tr1 IH]; simpl; auto. by rewrite IH. Qed.

Lemma puts_are_silent insights :
  reads (map EvPut insights) = [] ∧ sleeps (map EvPut insights) = []
  ∧ awaited (map EvPut insights) = [] ∧ logged (map EvPut insights) = []
  ∧ Forall (λ ev, ev ≠ EvWait) (map EvPut insights).
Proof.
  induction insights as [|i insights (Hr & Hs & Ha & Hl & Hw)]; simpl.
  - repeat split; constructor.
  - repeat split; try done. by constructor.
Qed.

(** What one turn reads, sleeps, awaits and logs. *)
Lemma turn_trace T chunk st o st1 evs :
  turn T chunk st o st1 evs →
  let buf := audio_buffer st ++ chunk in
  let k := tasks_sent st in
  reads evs = []
  ∧ Forall (λ ev, ev ≠ EvWait) evs
  ∧ (o = Returns tt → sleeps evs = [0.1%Q])
  ∧ awaited evs = map (λ _, (k, 10)) (submitted evs)
  ∧ logged evs = failures k (submitted evs).
Proof.
  destruct 1 as [Hlow|e Hhigh Hdelay|u insights Hhigh Hdelay Hget
                |u e Hhigh Hdelay Hget]; simpl.
  - repeat split; auto; try by repeat constructor.
  - repeat split; auto; try by repeat constructor.
  - destruct (puts_are_silent insights) as (Hr & Hs & Ha & Hl & Hw).
    rewrite reads_app, sleeps_app, awaited_app, logged_app, submitted_app,
      submitted_puts, Hr, Hs, Ha, Hl. simpl. rewrite Hget.
    repeat split; auto.
    repeat constructor; try done. apply Forall_app. split; [done|].
    by repeat constructor.
  - rewrite Hget. repeat split; auto; try by repeat constructor.
Qed.

(** X7.  Nothing after the first empty read matters: the loop does on
    [stdout] what it does on the chunks before the first empty one. *)
Theorem capture_stops_at_first_empty_read T stdout st :
  capture_loop T stdout st = capture_loop T (consumed stdout) st.
Proof.
  revert st. induction stdout as [|[|b chunk] stdout IH]; intros st.
  - done.
  - done.
  - change (consumed ((b :: chunk) :: stdout))
      with ((b :: chunk) :: consumed stdout).
    rewrite !capture_loop_cons.
    destruct (loop_body T (b :: chunk) st) as [[[[]|e] st1] evs]; [|done].
    by rewrite IH.
Qed.

Lemma capture_loop_below_threshold T stdout st :
  len (audio_buffer st ++ concat (consumed stdout)) < T →
  ∃ tr,
    capture_loop T stdout st
    = (Returns tt,
       mkState (audio_buffer st ++ concat (consumed stdout))
               (insights_queue st) (tasks_sent st),
       tr)
    ∧ submitted tr = [] ∧ pushed tr = [] ∧ logged tr = [].
Proof.
  revert st. induction stdout as [|[|b chunk] stdout IH]; intros [buf q k];
    simpl audio_buffer; simpl insights_queue; simpl tasks_sent.
  - intros _. exists [EvRead 1024 []]. simpl. by rewrite app_nil_r.
  - intros _. exists [EvRead 1024 []]. simpl. by rewrite app_nil_r.
  - change (consumed ((b :: chunk) :: stdout))
      with ((b :: chunk) :: consumed stdout).
    change (concat ((b :: chunk) :: consumed stdout))
      with ((b :: chunk) ++ concat (consumed stdout)).
    intros Hshort.
    rewrite capture_loop_cons, loop_body_spec. cbv zeta.
    simpl audio_buffer; simpl insights_queue; simpl tasks_sent.
    rewrite bool_decide_eq_false_2.
    2:{ rewrite app_assoc, len_app in Hshort.
        pose proof (len_nonneg (concat (consumed stdout))). lia. }
    destruct (IH (mkState (buf ++ b :: chunk) q k)) as (tr & Hrun & Hs & Hp & Hl).
    { simpl. by rewrite <- app_assoc. }
    rewrite Hrun. simpl audio_buffer; simpl insights_queue; simpl tasks_sent.
    eexists. split; [by rewrite <- app_assoc|]. by simpl.
Qed.

(** X8.  A stream that ends before 100000 bytes have been read yields
    nothing: [process_video_stream] returns normally without submitting a
    segment, putting an insight or logging an error, and the bytes read
    are left behind in the buffer. *)
Theorem short_stream_yields_nothing stream_url stdout st :
  len (concat (consumed stdout)) < 100000 →
  ∃ tr,
    process_video_stream stream_url stdout st
    = (Returns tt,
       mkState (concat (consumed stdout)) (insights_queue st) (tasks_sent st),
       tr)
    ∧ submitted tr = [] ∧ pushed tr = [] ∧ logged tr = []
    ∧ last tr = Some EvWait.
Proof.
  intros Hshort.
  destruct (capture_loop_below_threshold THRESHOLD stdout
              (mkState [] (insights_queue st) (tasks_sent st)))
    as (tr & Hrun & Hs & Hp & Hl); [done|].
  rewrite process_video_stream_spec. cbv zeta. rewrite Hrun.
  eexists. split; [reflexivity|].
  rewrite app_comm_cons, submitted_app, pushed_app, logged_app, last_snoc.
  simpl. by rewrite Hs, Hp, Hl.
Qed.

Lemma capture_loop_refused T stdout st r st' tr :
  capture_loop T stdout st = (r, st', tr) →
  Forall (λ ev, ev ≠ EvWait) tr
  ∧ ∀ e, r = Raises e →
      audio_buffer st' = []
      ∧ ∃ buf,
          delay_outcome (tasks_sent st') buf = Raises e
          ∧ T ≤ len buf
          ∧ concat (submitted tr) ++ buf
              `prefix_of` audio_buffer st ++ concat (consumed stdout).
Proof.
  intros Hrun. pattern stdout, st, r, st', tr.
  eapply capture_loop_run_ind; [..|exact Hrun]; clear.
  - intros st. split; [by repeat constructor|]. intros e [=].
  - intros stdout st. split; [by repeat constructor|]. intros e [=].
  - intros chunk stdout st st1 evs r st' tr Hne Hturn _ [IHw IHr].
    destruct (turn_trace _ _ _ _ _ _ Hturn) as (_ & Hw & _).
    split.
    { constructor; [done|]. apply Forall_app. by split. }
    intros e ->. destruct (IHr e eq_refl) as (Hbuf & buf & Hdelay & Hlen & Hpre).
    split; [done|]. exists buf. split; [done|]. split; [done|].
    rewrite consumed_cons by done. simpl. rewrite submitted_app, concat_app.
    apply turn_submitted in Hturn; simpl in Hturn.
    destruct Hturn as [(-> & Hst1 & _)|(-> & Hst1 & _)].
    + rewrite (Hst1 eq_refl), <- app_assoc in Hpre. done.
    + rewrite Hst1 in Hpre. simpl in *.
      rewrite app_nil_r, <- !app_assoc. by do 2 apply prefix_app.
  - intros chunk stdout st st1 evs e Hne Hturn.
    inversion Hturn as [|e' Hhigh Hdelay| |]; subst.
    split; [by repeat constructor|].
    intros e' [= <-]. split; [done|].
    exists (audio_buffer st ++ chunk).
    split; [done|]. split; [done|].
    rewrite consumed_cons by done. simpl.
    rewrite app_assoc. by apply prefix_app_r.
Qed.

(** X9.  When the broker refuses the submission of a segment, that turn
    of the loop raises the broker's exception with the buffer already
    cleared: the segment is neither submitted nor kept, nothing is logged,
    no sleep follows and nothing further is read.  An exception that leaves
    the loop leaves [process_video_stream] before [await process.wait()]:
    the decoder is not waited for. *)
Theorem refused_submission_ends_capture :
  (∀ T b chunk stdout st e,
      let buf := audio_buffer st ++ b :: chunk in
      let k := tasks_sent st in
      T ≤ len buf →
      delay_outcome k buf = Raises e →
      capture_loop T ((b :: chunk) :: stdout) st
      = (Raises e, mkState [] (insights_queue st) k,
         [EvRead 1024 (b :: chunk)]))
  ∧ (∀ stream_url stdout st e st' tr,
      capture_loop THRESHOLD stdout
        (mkState [] (insights_queue st) (tasks_sent st)) = (Raises e, st', tr) →
      ∃ tr',
        process_video_stream stream_url stdout st = (Raises e, st', tr')
        ∧ (EvWait ∉ tr')
        ∧ submitted tr' = submitted tr
        ∧ pushed tr' = pushed tr).
Proof.
  split.
  - intros T b chunk stdout st e buf k Hcut Hrefused.
    rewrite capture_loop_cons, loop_body_spec. cbv zeta. fold buf k.
    by rewrite bool_decide_eq_true_2, Hrefused.
  - intros stream_url stdout st e st' tr Hrun.
    destruct (capture_loop_refused _ _ _ _ _ _ Hrun) as [Hw _].
    rewrite process_video_stream_spec. cbv zeta. rewrite Hrun.
    eexists. split; [reflexivity|]. split; [|done].
    rewrite elem_of_cons. intros [[=]|Hin].
    rewrite Forall_forall in Hw. by apply (Hw _ Hin).
Qed.

(** X10.  A loop that returns has read every chunk up to the end of the
    stream, then the empty one, and has slept 0.1 seconds once after each
    non-empty read. *)
Theorem one_sleep_per_read T stdout st :
  let '(r, _, tr) := capture_loop T stdout st in
  r = Returns tt →
  reads tr = consumed stdout ++ [[]]
  ∧ sleeps tr = replicate (length (consumed stdout)) 0.1%Q.
Proof.
  destruct (capture_loop T stdout st) as [[r st'] tr] eqn:Hrun.
  pattern stdout, st, r, st', tr.
  eapply capture_loop_run_ind; [..|exact Hrun]; clear.
  - done.
  - done.
  - intros chunk stdout st st1 evs r st' tr Hne Hturn _ IH Hr.
    destruct (IH Hr) as [IHr IHs].
    destruct (turn_trace _ _ _ _ _ _ Hturn) as (Hreads & _ & Hsleeps & _).
    rewrite consumed_cons by done. simpl.
    rewrite reads_app, sleeps_app, Hreads, (Hsleeps eq_refl), IHr, IHs.
    done.
  - intros chunk stdout st st1 evs e _ _ [=].
Qed.

(** X11.  Every error line of the loop stands for one [get] that raised:
    the lines logged in a run are, in order, those of the submitted tasks
    whose result could not be fetched. *)
Theorem each_failed_get_is_logged_once T stdout st :
  let '(_, _, tr) := capture_loop T stdout st in
  logged tr = failures (tasks_sent st) (submitted tr).
Proof.
  destruct (capture_loop T stdout st) as [[r st'] tr] eqn:Hrun.
  pattern stdout, st, r, st', tr.
  eapply capture_loop_run_ind; [..|exact Hrun]; clear.
  - done.
  - done.
  - intros chunk stdout st st1 evs r st' tr Hne Hturn _ IH.
    destruct (turn_trace _ _ _ _ _ _ Hturn) as (_ & _ & _ & _ & Hlogged).
    simpl. rewrite logged_app, submitted_app, Hlogged, IH.
    apply turn_submitted in Hturn; simpl in Hturn.
    destruct Hturn as [(-> & _ & _ & ->)|(-> & _ & _ & _ & ->)]; simpl.
    + done.
    + by rewrite app_nil_r.
  - intros chunk stdout st st1 evs e _ Hturn.
    inversion Hturn; subst. done.
Qed.

(** X12.  Every submitted task is waited for exactly once, in submission
    order and with the ten-second bound: the waits of a run are those for
    the tasks numbered from the first one sent in it. *)
Theorem each_task_is_awaited_once T stdout st :
  let '(_, _, tr) := capture_loop T stdout st in
  awaited tr
  = map (λ k, (k, 10)) (seq (tasks_sent st) (length (submitted tr))).
Proof.
  destruct (capture_loop T stdout st) as [[r st'] tr] eqn:Hrun.
  pattern stdout, st, r, st', tr.
  eapply capture_loop_run_ind; [..|exact Hrun]; clear.
  - done.
  - done.
  - intros chunk stdout st st1 evs r st' tr Hne Hturn _ IH.
    destruct (turn_trace _ _ _ _ _ _ Hturn) as (_ & _ & _ & Hawaited & _).
    simpl. rewrite awaited_app, submitted_app, Hawaited, IH.
    apply turn_submitted in Hturn; simpl in Hturn.
    destruct Hturn as [(-> & _ & _ & ->)|(-> & _ & _ & _ & ->)]; simpl; done.
  - intros chunk stdout st st1 evs e _ Hturn.
    inversion Hturn; subst. done.
Qed.

End CaptureMore.

Lemma short_stream_yields_nothing_witness :
  (Main.process_video_stream (broker := Fixture.late_first) Fixture.room
     [[x01; x02]; [x03]] Fixture.fresh).1
  = (Returns tt, Main.mkState [x01; x02; x03] [] 0).
Proof.
  destruct (short_stream_yields_nothing (broker := Fixture.late_first)
              Fixture.room [[x01; x02]; [x03]] Fixture.fresh)
    as (tr & Hrun & _).
  - unfold len. simpl. lia.
  - rewrite Hrun. reflexivity.
Defined.

(** X13.  How the stream is cut does not depend on what the workers
    return: two brokers that accept every task see the same segments and
    leave the same bytes in the buffer, whatever their results are. *)
Theorem cuts_do_not_depend_on_results (b1 b2 : Main.Celery) T stdout st1 st2 :
  (∀ k payload, ∃ u, Main.delay_outcome (Celery := b1) k payload = Returns u) →
  (∀ k payload, ∃ u, Main.delay_outcome (Celery := b2) k payload = Returns u) →
  Main.audio_buffer st1 = Main.audio_buffer st2 →
  let run1 := Main.capture_loop (broker := b1) T stdout st1 in
  let run2 := Main.capture_loop (broker := b2) T stdout st2 in
  Main.submitted run1.2 = Main.submitted run2.2
  ∧ Main.audio_buffer run1.1.2 = Main.audio_buffer run2.1.2.
Proof.
  intros H1 H2 Hbuf run1 run2.
  destruct run1 as [[r1 st1'] tr1] eqn:Hrun1.
  destruct run2 as [[r2 st2'] tr2] eqn:Hrun2.
  destruct (capture_loop_cuts _ _ _ _ _ _ H1 Hrun1) as (_ & Hs1 & Hb1).
  destruct (capture_loop_cuts _ _ _ _ _ _ H2 Hrun2) as (_ & Hs2 & Hb2).
  simpl. by rewrite Hs1, Hs2, Hb1, Hb2, Hbuf.
Qed.

Lemma refused_submission_ends_capture_witness :
  Main.capture_loop (broker := Samples.down_at_second) 4
    [[x01; x02; x03; x04]; [x05]] (Main.mkState [] [] 1)
  = (Raises (mkExc "OperationalError" "Connection refused"),
     Main.mkState [] [] 1,
     [Main.EvRead 1024 [x01; x02; x03; x04]])
  ∧ (let run :=
       Main.process_video_stream (broker := Samples.down_at_second)
         Fixture.room (Fixture.full_reads 250000) Fixture.fresh in
     run.1.1 = Raises (mkExc "OperationalError" "Connection refused")
     ∧ (Main.EvWait ∉ run.2)).
Proof.
  destruct (refused_submission_ends_capture (broker := Samples.down_at_second))
    as [Hturn Hwhole].
  split.
  - apply (Hturn 4 x01 [x02; x03; x04] [[x05]] (Main.mkState [] [] 1)).
    + unfold len. simpl. lia.
    + reflexivity.
  - intros run.
    assert (Hr : (Main.capture_loop (broker := Samples.down_at_second)
                    Main.THRESHOLD (Fixture.full_reads 250000)
                    (Main.mkState [] (Main.insights_queue Fixture.fresh)
                       (Main.tasks_sent Fixture.fresh))).1.1
                 = Raises (mkExc "OperationalError" "Connection refused")).
    { vm_compute. reflexivity. }
    destruct (Main.capture_loop _ _ _) as [[r st'] tr] eqn:Hloop.
    cbn [fst] in Hr. subst r.
    destruct (Hwhole Fixture.room _ _ _ _ _ Hloop) as (tr' & Hrun & Hw & _).
    subst run. rewrite Hrun. split; [reflexivity|exact Hw].
Defined.

Lemma one_sleep_per_read_witness :
  let tr :=
    (Main.capture_loop (broker := Fixture.late_first) 4
       [[x01; x02; x03; x04]; [x05]] Fixture.fresh).2 in
  Trace.reads tr = [[x01; x02; x03; x04]; [x05]; []]
  ∧ Trace.sleeps tr = [0.1%Q; 0.1%Q].
Proof.
  intros tr.
  exact (one_sleep_per_read (broker := Fixture.late_first) 4
           [[x01; x02; x03; x04]; [x05]] Fixture.fresh eq_refl).
Defined.

Lemma cuts_do_not_depend_on_results_witness :
  Main.submitted
    (Main.capture_loop (broker := Fixture.late_first) 4
       [[x01; x02; x03; x04]; [x05]] Fixture.fresh).2
  = Main.submitted
      (Main.capture_loop (broker := Main.Build_Celery (λ _ _, Returns tt)
                                      (λ _ _ _, Returns [])) 4
         [[x01; x02; x03; x04]; [x05]] (Main.mkState [] [] 7)).2.
Proof.
  apply (cuts_do_not_depend_on_results Fixture.late_first
           (Main.Build_Celery (λ _ _, Returns tt) (λ _ _ _, Returns [])) 4
           [[x01; x02; x03; x04]; [x05]] Fixture.fresh (Main.mkState [] [] 7)).
  - intros k payload. by exists tt.
  - intros k payload. by exists tt.
  - reflexivity.
Defined.

(** * Further properties of the subscribers *)

Section HubMore.
Import Main Trace.

(** X14.  A subscriber whose [send_json] has raised is out for good: in
    every later schedule its coroutine stays closed, takes nothing more off
    the queue and is sent nothing more. *)
Theorem closed_subscriber_stays_closed schedule h h' ws :
  handlers h !! ws = Some Closed →
  run schedule h = Some h' →
  handlers h' !! ws = Some Closed
  ∧ received ws h' = received ws h
  ∧ taken_by ws h' = taken_by ws h.
Proof.
  revert h. induction schedule as [|a schedule IH]; intros h Hclosed; simpl.
  - by intros [= <-].
  - destruct (step a h) as [h1|] eqn:Hstep; [|done].
    intros Hrun.
    assert (Hone : handlers h1 !! ws = Some Closed
                   ∧ received ws h1 = received ws h
                   ∧ taken_by ws h1 = taken_by ws h).
    { unfold received, taken_by.
      destruct a as [ws'|insight|ws'|ws'|ws' e]; simpl in Hstep.
      - destruct (handlers h !! ws') eqn:Hws'; [done|].
        injection Hstep as <-. simpl. split; [|done].
        rewrite lookup_insert_ne; [done|congruence].
      - by injection Hstep as <-.
      - destruct (handlers h !! ws') as [[| |]|] eqn:Hws'; try done.
        destruct (queue h); [done|]. injection Hstep as <-. simpl.
        assert (ws' ≠ ws) by congruence.
        split; [by rewrite lookup_insert_ne|]. split; [done|].
        rewrite filter_app, filter_cons_False by done.
        by rewrite filter_nil, app_nil_r.
      - destruct (handlers h !! ws') as [[|insight|]|] eqn:Hws'; try done.
        injection Hstep as <-. simpl.
        assert (ws' ≠ ws) by congruence.
        split; [by rewrite lookup_insert_ne|]. split; [|done].
        rewrite filter_app, filter_cons_False by done.
        by rewrite filter_nil, app_nil_r.
      - destruct (handlers h !! ws') as [[|insight|]|] eqn:Hws'; try done.
        injection Hstep as <-. simpl. split; [|done].
        destruct (decide (ws' = ws)) as [->|Hne].
        + by rewrite lookup_insert_eq.
        + by rewrite lookup_insert_ne. }
    destruct Hone as (Hc1 & Hr1 & Ht1).
    destruct (IH h1 Hc1 Hrun) as (Hc & Hr & Ht).
    by rewrite Hr, Ht, Hr1, Ht1.
Qed.

Lemma step_in_step a h h' : step a h = Some h' → in_step h → in_step h'.
Proof.
  intros Hstep Hinv ws. specialize (Hinv ws).
  unfold taken_by, received in *.
  destruct a as [ws'|insight|ws'|ws'|ws' e]; simpl in Hstep.
  - destruct (handlers h !! ws') eqn:Hws'; [done|].
    injection Hstep as <-. simpl.
    destruct (decide (ws' = ws)) as [->|Hne].
    + rewrite lookup_insert_eq. by rewrite Hws' in Hinv.
    + by rewrite lookup_insert_ne.
  - by injection Hstep as <-.
  - destruct (handlers h !! ws') as [[| |]|] eqn:Hws'; try done.
    destruct (queue h) as [|insight rest]; [done|].
    injection Hstep as <-. simpl.
    destruct (decide (ws' = ws)) as [->|Hne].
    + rewrite lookup_insert_eq. rewrite Hws' in Hinv.
      rewrite filter_app, filter_cons_True by done.
      by rewrite filter_nil, fmap_app, Hinv.
    + rewrite lookup_insert_ne by done.
      rewrite filter_app, filter_cons_False by done.
      by rewrite filter_nil, app_nil_r.
  - destruct (handlers h !! ws') as [[|insight|]|] eqn:Hws'; try done.
    injection Hstep as <-. simpl.
    destruct (decide (ws' = ws)) as [->|Hne].
    + rewrite lookup_insert_eq. rewrite Hws' in Hinv.
      rewrite filter_app, filter_cons_True by done.
      by rewrite filter_nil, fmap_app.
    + rewrite lookup_insert_ne by done.
      rewrite filter_app, filter_cons_False by done.
      by rewrite filter_nil, app_nil_r.
  - destruct (handlers h !! ws') as [[|insight|]|] eqn:Hws'; try done.
    injection Hstep as <-. simpl.
    destruct (decide (ws' = ws)) as [->|Hne].
    + rewrite lookup_insert_eq. rewrite Hws' in Hinv. by exists insight.
    + by rewrite lookup_insert_ne.
Qed.

Lemma run_in_step schedule h h' :
  run schedule h = Some h' → in_step h → in_step h'.
Proof.
  revert h. induction schedule as [|a schedule IH]; intros h; simpl.
  - by intros [= <-].
  - destruct (step a h) as [h1|] eqn:Hstep; [|done].
    eauto using step_in_step.
Qed.

(** X15.  Each subscriber is sent insights in the order they were put on
    the queue: what a connection has received is a sub-sequence of the
    puts, a prefix of what it took, short of it by at most the one insight
    it holds. *)
Theorem subscriber_receives_in_put_order schedule h ws :
  run schedule hub0 = Some h →
  received ws h `prefix_of` taken_by ws h
  ∧ (length (taken_by ws h) ≤ S (length (received ws h)))%nat
  ∧ received ws h `sublist_of` puts schedule.
Proof.
  intros Hrun.
  assert (Hinv : in_step h).
  { apply (run_in_step _ _ _ Hrun). intros ws'. unfold hub0. simpl.
    by rewrite lookup_empty. }
  assert (Hpre : received ws h `prefix_of` taken_by ws h
                 ∧ (length (taken_by ws h) ≤ S (length (received ws h)))%nat).
  { specialize (Hinv ws).
    destruct (handlers h !! ws) as [[|insight|]|].
    - rewrite Hinv. split; [done|lia].
    - rewrite Hinv. split; [by apply prefix_app_r|].
      rewrite length_app. simpl. lia.
    - destruct Hinv as [insight ->]. split; [by apply prefix_app_r|].
      rewrite length_app. simpl. lia.
    - rewrite Hinv. split; [done|lia]. }
  destruct Hpre as [Hpre Hlen]. split; [done|]. split; [done|].
  destruct (run_sent _ _ Hrun) as [Hhist _].
  transitivity (taken_by ws h).
  { destruct Hpre as [k ->]. by apply sublist_inserts_r. }
  transitivity ((taken h).*2).
  - unfold taken_by. apply fmap_sublist, sublist_filter.
  - rewrite <- Hhist. by apply sublist_inserts_r.
Qed.

End HubMore.

Lemma closed_subscriber_stays_closed_witness :
  let insight := Fixture.note "Speaker 1" "Follow up on discussion" in
  let gone := mkExc "WebSocketDisconnect" "1001" in
  let before :=
    [Main.Attach 1; Main.Put insight; Main.Get 1; Main.SendRaises 1 gone] in
  let after := [Main.Put insight; Main.Attach 2; Main.Get 2; Main.SendOk 2] in
  match Main.run before Main.hub0 with
  | Some h =>
      match Main.run after h with
      | Some h' =>
          Main.received 1 h' = [] ∧ Main.received 2 h' = [insight]
      | None => False
      end
  | None => False
  end.
Proof.
  intros insight gone before after.
  destruct (Main.run before Main.hub0) as [h|] eqn:Hbefore;
    [|vm_compute in Hbefore; discriminate Hbefore].
  destruct (Main.run after h) as [h'|] eqn:Hafter.
  - destruct (closed_subscriber_stays_closed after h h' 1%nat) as (_ & Hr & _).
    + vm_compute in Hbefore. injection Hbefore as <-. reflexivity.
    + exact Hafter.
    + rewrite Hr. vm_compute in Hbefore. injection Hbefore as <-.
      vm_compute in Hafter. injection Hafter as <-. split; reflexivity.
  - vm_compute in Hbefore. injection Hbefore as <-.
    vm_compute in Hafter. discriminate Hafter.
Defined.

Lemma subscriber_receives_in_put_order_witness :
  let a := Fixture.note "Speaker 1" "first" in
  let b := Fixture.note "Speaker 2" "second" in
  let schedule :=
    [Main.Attach 1; Main.Attach 2; Main.Put a; Main.Put b;
     Main.Get 2; Main.Get 1; Main.SendOk 1; Main.SendOk 2] in
  match Main.run schedule Main.hub0 with
  | Some h =>
      Main.received 1 h = [b] ∧ Main.received 2 h = [a]
      ∧ Main.received 1 h `sublist_of` [a; b]
  | None => False
  end.
Proof.
  intros a b schedule.
  destruct (Main.run schedule Main.hub0) as [h|] eqn:Hrun.
  - destruct (subscriber_receives_in_put_order schedule h 1%nat Hrun)
      as (_ & _ & Hsub).
    vm_compute in Hrun. injection Hrun as <-.
    split; [reflexivity|]. split; [reflexivity|exact Hsub].
  - vm_compute in Hrun. discriminate Hrun.
Defined.

(** * Properties of the in-process collaborators and of the logger set-up *)

Section HelperFacts.
Import Tasks Helpers.
Context {world : Type} `{!Library world} `{!AsyncLibrary world}.

(** Case analysis on the innermost library call of the goal. *)
Ltac split_call :=
  match goal with
  | |- context [match ?c with pair _ _ => _ end] =>
      lazymatch c with
      | context [match _ with _ => _ end] => fail
      | _ => destruct c as [[?|?] ?]; simpl
      end
  end.

(** X16.  The coroutines of main.py do what the worker's functions do
    around the same temporary file: [transcribe_audio] is
    [transcribe_audio_sync] on the file written, followed on every path by
    its removal, and [perform_diarization] is [perform_diarization_sync]
    likewise. *)
Theorem in_process_helpers_agree_with_worker audio_bytes w :
  transcribe_audio audio_bytes w
  = (tmp_name ← write_temp_wav audio_bytes;
     try_finally (transcribe_audio_sync tmp_name) (os_unlink tmp_name)) w
  ∧ perform_diarization audio_bytes w
    = (tmp_name ← write_temp_wav audio_bytes;
       try_finally (perform_diarization_sync tmp_name) (os_unlink tmp_name)) w.
Proof.
  unfold transcribe_audio, perform_diarization, transcribe_audio_sync,
    perform_diarization_sync, run_in_executor,
    Helpers.diarization_processing, Tasks.diarization_processing,
    try_finally, try_except, log_error, mbind, M_bind, mret, M_ret.
  destruct (write_temp_wav audio_bytes w) as [[tmp_name|e] w1]; [|done].
  split; repeat split_call; reflexivity.
Qed.

(** X17.  Once the temporary file is written and as long as removing it
    works, [transcribe_audio] and [perform_diarization] return whatever the
    model or the diarization placeholder does: a failure there gives the
    empty transcript or the empty mapping, not an exception. *)
Theorem in_process_helpers_absorb_failures audio_bytes w tmp_name w1 :
  write_temp_wav audio_bytes w = (Returns tmp_name, w1) →
  (∀ w', ∃ w'', os_unlink tmp_name w' = (Returns tt, w'')) →
  (∃ text w', transcribe_audio audio_bytes w = (Returns text, w')
     ∧ ∀ e w2, model_transcribe tmp_name w1 = (Raises e, w2) → text = ""%string)
  ∧ (∃ d w', perform_diarization audio_bytes w = (Returns d, w')
     ∧ ∀ e w2, time_sleep 0.5 w1 = (Raises e, w2) → d = ∅).
Proof.
  intros Htmp Hunlink.
  unfold transcribe_audio, perform_diarization, run_in_executor,
    Helpers.diarization_processing,
    try_finally, try_except, log_error, mbind, M_bind, mret, M_ret.
  rewrite Htmp. split.
  - destruct (model_transcribe tmp_name w1) as [[result|e] w2].
    + destruct (Hunlink w2) as [w3 ->]. eexists _, _. split; [done|].
      intros e w2' [=].
    + destruct (Hunlink (logger_error ("Transcription failed: " +:+ exc_str e) w2))
        as [w3 ->].
      by eexists _, _.
  - destruct (time_sleep 0.5 w1) as [[[]|e] w2].
    + destruct (Hunlink w2) as [w3 ->]. eexists _, _. split; [done|].
      intros e w2' [=].
    + destruct (Hunlink (logger_error ("Diarization failed: " +:+ exc_str e) w2))
        as [w3 ->].
      by eexists _, _.
Qed.

(** X18.  [extract_insights] returns what the worker's
    [extract_insights_sync] returns, wherever [asyncio.sleep] leaves the
    world as [time.sleep] does: one insight with the fixed action,
    keywords and sentiment, whatever the transcript. *)
Theorem extract_insights_agrees_with_worker transcription diarization w :
  asyncio_sleep 0.5 w = time_sleep 0.5 w →
  extract_insights transcription diarization w
  = extract_insights_sync transcription diarization w
  ∧ ∀ other, extract_insights other diarization w
             = extract_insights transcription diarization w.
Proof.
  intros Hsleep.
  unfold extract_insights, extract_insights_sync, mbind, M_bind.
  by rewrite Hsleep.
Qed.

End HelperFacts.

Lemma in_process_helpers_absorb_failures_witness :
  Helpers.transcribe_audio (Library0 := Fixture.deaf_worker) [x00; x01] []
  = (Returns ""%string, ["Transcription failed: Failed to load audio"%string])
  ∧ Helpers.perform_diarization (Library0 := Samples.restless_worker)
      [x00; x01] []
    = (Returns ∅, ["Diarization failed: interrupted"%string]).
Proof.
  split.
  - destruct (in_process_helpers_absorb_failures
                (Library0 := Fixture.deaf_worker) [x00; x01] []
                "/tmp/tmpk3.wav" [] eq_refl)
      as [(text & w' & Hrun & Hempty) _].
    { intros w'. by exists w'. }
    rewrite Hrun.
    rewrite (Hempty (mkExc "RuntimeError" "Failed to load audio") [] eq_refl)
      in Hrun.
    vm_compute in Hrun. injection Hrun as <-.
    by rewrite (Hempty (mkExc "RuntimeError" "Failed to load audio") [] eq_refl).
  - destruct (in_process_helpers_absorb_failures
                (Library0 := Samples.restless_worker) [x00; x01] []
                "/tmp/tmpk3.wav" [] eq_refl)
      as [_ (d & w' & Hrun & Hempty)].
    { intros w'. by exists w'. }
    rewrite Hrun.
    rewrite (Hempty (mkExc "InterruptedError" "interrupted") [] eq_refl) in Hrun.
    vm_compute in Hrun. injection Hrun as <-.
    by rewrite (Hempty (mkExc "InterruptedError" "interrupted") [] eq_refl).
Defined.

Lemma extract_insights_agrees_with_worker_witness :
  Helpers.extract_insights (Library0 := Fixture.deaf_worker)
    (AsyncLibrary0 := Samples.steady_loop) "hello"
    (<["speaker_1"%string := "Ana"%string]> ∅) []
  = (Returns [ {| timestamp := 1738800000%Q;
                  speaker := "Ana";
                  action := "Follow up on discussion";
                  keywords := ["follow"; "discussion"]%string;
                  sentiment := "positive" |} ], []).
Proof.
  destruct (extract_insights_agrees_with_worker
              (Library0 := Fixture.deaf_worker)
              (AsyncLibrary0 := Samples.steady_loop) "hello"%string
              (<["speaker_1"%string := "Ana"%string]> ∅) [] eq_refl)
    as [Hsame _].
  rewrite Hsame. reflexivity.
Defined.

(** * Properties of the logger set-up *)

Section LoggerFacts.
Import Logger.

Lemma get_logger_bare name registry :
  (registry !! name = None
   ∨ ∃ lvl, registry !! name = Some (mkLogger [] lvl)) →
  get_logger name registry
  = <[name := mkLogger
        [mkHandler "[%(levelname)s] %(asctime)s - %(name)s - %(message)s"]
        INFO]> registry.
Proof.
  unfold get_logger, getLogger.
  intros [->|[lvl ->]]; simpl; [|done].
  by rewrite insert_insert_eq.
Qed.

Lemma get_logger_configured name registry logger :
  registry !! name = Some logger →
  handlers logger ≠ [] →
  get_logger name registry = registry.
Proof.
  unfold get_logger, getLogger. intros -> Hsome.
  by destruct (handlers logger).
Qed.


(** X20.  [get_logger] sets the level only together with the handler: a
    logger that has none yet gets the one stream handler and level INFO,
    while a logger that already has a handler is returned as it is, its
    level included. *)
Theorem get_logger_configures_bare_loggers_only name registry :
  match registry !! name with
  | Some (mkLogger (h :: hs) lvl) =>
      get_logger name registry !! name = Some (mkLogger (h :: hs) lvl)
  | _ =>
      get_logger name registry !! name
      = Some (mkLogger
                [mkHandler "[%(levelname)s] %(asctime)s - %(name)s - %(message)s"]
                INFO)
  end.
Proof.
  destruct (registry !! name) as [[[|h hs] lvl]|] eqn:Hreg.
  - rewrite get_logger_bare by eauto. by rewrite lookup_insert_eq.
  - by rewrite (get_logger_configured _ _ _ Hreg).
  - rewrite get_logger_bare by eauto. by rewrite lookup_insert_eq.
Qed.

End LoggerFacts.

